(** * BookRetrieval: the indexing notebook [app/data_indexing.ipynb]

    A shallow embedding of the notebook's cells: the Python built-ins the
    cells call ([str.lower], [str.endswith], slices, [os.path.basename],
    [os.path.join], [base64.b64encode], [bytes.decode]), the part of the
    vector store client the cells use ([get_or_create_collection],
    [Collection.add]) and the two indexing loops, followed by the
    properties of the indexing pipeline. *)

From Stdlib Require Import NArith ZArith DecimalString DecimalZ.
From Stdlib.Strings Require Import Ascii String Byte.
From stdpp Require Import base option list gmap.

Local Open Scope N_scope.

(** ** Python values used by the notebook *)

Module Py.

(** A Python [str] is a sequence of Unicode code points; a [bytes] value
    is a sequence of octets. *)
Abbreviation str := (list N).
Abbreviation bytes := (list byte).

Definition newline : N := 10.

Definition is_ascii (c : N) : bool := c <? 128.

Definition ascii_lower (c : N) : N :=
  if (65 <=? c) && (c <=? 90) then c + 32 else c.

(** [s.lower()].  On a string of ASCII code points Python lowers each of
    [A-Z]; on any other string the Unicode case mapping applies, which is
    not tabulated here and is taken as [unicode_lower]. *)
Definition lower (unicode_lower : str → str) (s : str) : str :=
  if forallb is_ascii s then ascii_lower <$> s else unicode_lower s.

(** [s.endswith(suffix)] and [s.endswith((suffix1, suffix2, ...))]. *)
Definition endswith (s suffix : str) : bool :=
  bool_decide (drop (length s - length suffix) s = suffix).

Definition endswith_any (s : str) (suffixes : list str) : bool :=
  existsb (endswith s) suffixes.

(** [s[n:]] and [s[:-n]] for a literal [n > 0]: both clamp at the ends of
    the string instead of raising. *)
Definition slice_from (n : nat) (s : str) : str := drop n s.
Definition slice_to_minus (n : nat) (s : str) : str := take (length s - n) s.

(** The JSON scalars an item's [Id] can hold, floats apart; [py_str]
    below is [str(x)] on them. *)
Inductive scalar :=
| PyInt (z : Z)
| PyStr (s : str)
| PyBool (b : bool)
| PyNone.

(** *** [os.path] *)

(** [os.path] is [posixpath] or [ntpath] depending on the platform the
    notebook runs on.  Paths with a drive or a UNC prefix are not
    modelled: the walk starts from the relative path [image_data]. *)
Inductive platform := Posix | Windows.

Definition slash : N := 47.
Definition backslash : N := 92.

Definition sep (pf : platform) : N :=
  match pf with Posix => slash | Windows => backslash end.

Definition is_sep (pf : platform) (c : N) : bool :=
  match pf with
  | Posix => c =? slash
  | Windows => (c =? backslash) || (c =? slash)
  end.

(** [os.path.basename(p)]: what follows the last separator of [p]. *)
Fixpoint basename (pf : platform) (p : str) : str :=
  match p with
  | [] => []
  | c :: r => if is_sep pf c || existsb (is_sep pf) r then basename pf r else c :: r
  end.

(** [os.path.join(a, b)]. *)
Definition join (pf : platform) (a b : str) : str :=
  match b with
  | c :: _ => if is_sep pf c then b
              else match last a with
                   | None => b
                   | Some l => if is_sep pf l then a ++ b else a ++ sep pf :: b
                   end
  | [] => match last a with
          | None => []
          | Some l => if is_sep pf l then a else a ++ [sep pf]
          end
  end.

(** *** [base64.b64encode] and [bytes.decode('utf-8')] *)

Definition b64_alphabet : string :=
  "ABCDEFGHIJKLMNOPQRSTUVWXYZabcdefghijklmnopqrstuvwxyz0123456789+/".

Definition b64_char (sextet : N) : byte :=
  match get (N.to_nat sextet) b64_alphabet with
  | Some a => byte_of_ascii a
  | None => "="%byte
  end.

Definition b64_pad : byte := "="%byte.

Fixpoint b64encode (bs : bytes) : bytes :=
  match bs with
  | [] => []
  | [a] =>
      let n := N.shiftl (Byte.to_N a) 16 in
      [b64_char (N.shiftr n 18); b64_char (N.land (N.shiftr n 12) 63);
       b64_pad; b64_pad]
  | [a; b] =>
      let n := N.lor (N.shiftl (Byte.to_N a) 16) (N.shiftl (Byte.to_N b) 8) in
      [b64_char (N.shiftr n 18); b64_char (N.land (N.shiftr n 12) 63);
       b64_char (N.land (N.shiftr n 6) 63); b64_pad]
  | a :: b :: c :: rest =>
      let n := N.lor (N.lor (N.shiftl (Byte.to_N a) 16) (N.shiftl (Byte.to_N b) 8))
                     (Byte.to_N c) in
      b64_char (N.shiftr n 18) :: b64_char (N.land (N.shiftr n 12) 63)
        :: b64_char (N.land (N.shiftr n 6) 63) :: b64_char (N.land n 63)
        :: b64encode rest
  end.

(** Modelled from the spec: the error kinds of the two embedding
    generators of [src.engine] (sections 4.1, 4.2 and 7), whose code is not
    among the sources. *)
Inductive generator_error :=
| InputError
| ModelUnavailableError
| DecodeError.

(** The exceptions a cell can raise: Python's own, the vector store's
    dimension and lookup errors, and those of the generators. *)
Inductive exn :=
| AttributeError
| OSError
| UnicodeDecodeError
| InvalidDimensionException
| InvalidCollectionException
| GeneratorError (kind : generator_error).

Definition is_cont (b : N) : bool := (128 <=? b) && (b <=? 191).
Definition cont_bits (b : N) : N := N.land b 63.

(** [bs.decode('utf-8')] with the default strict error handler: [None]
    stands for [UnicodeDecodeError]. *)
Fixpoint utf8_decode (bs : bytes) : option str :=
  match bs with
  | [] => Some []
  | b0 :: r0 =>
      let c0 := Byte.to_N b0 in
      if c0 <? 128 then cons c0 <$> utf8_decode r0
      else if (194 <=? c0) && (c0 <=? 223) then
        match r0 with
        | b1 :: r1 =>
            let c1 := Byte.to_N b1 in
            if is_cont c1
            then cons (N.lor (N.shiftl (N.land c0 31) 6) (cont_bits c1))
                   <$> utf8_decode r1
            else None
        | _ => None
        end
      else if (224 <=? c0) && (c0 <=? 239) then
        match r0 with
        | b1 :: b2 :: r2 =>
            let c1 := Byte.to_N b1 in
            let c2 := Byte.to_N b2 in
            if is_cont c1 && is_cont c2
               && negb ((c0 =? 224) && (c1 <? 160))
               && negb ((c0 =? 237) && (159 <? c1))
            then cons (N.lor (N.lor (N.shiftl (N.land c0 15) 12)
                                    (N.shiftl (cont_bits c1) 6))
                             (cont_bits c2))
                   <$> utf8_decode r2
            else None
        | _ => None
        end
      else if (240 <=? c0) && (c0 <=? 244) then
        match r0 with
        | b1 :: b2 :: b3 :: r3 =>
            let c1 := Byte.to_N b1 in
            let c2 := Byte.to_N b2 in
            let c3 := Byte.to_N b3 in
            if is_cont c1 && is_cont c2 && is_cont c3
               && negb ((c0 =? 240) && (c1 <? 144))
               && negb ((c0 =? 244) && (143 <? c1))
            then cons (N.lor (N.lor (N.lor (N.shiftl (N.land c0 7) 18)
                                           (N.shiftl (cont_bits c1) 12))
                                    (N.shiftl (cont_bits c2) 6))
                             (cont_bits c3))
                   <$> utf8_decode r3
            else None
        | _ => None
        end
      else None
  end.

(** A string literal of the source: the file is UTF-8, the literal
    denotes the code points its bytes decode to. *)
Definition lit (s : string) : str :=
  default [] (utf8_decode (list_byte_of_string s)).

Definition str_of_int (z : Z) : str := lit (NilZero.string_of_int (Z.to_int z)).

Definition py_str (x : scalar) : str :=
  match x with
  | PyInt z => str_of_int z
  | PyStr s => s
  | PyBool true => lit "True"
  | PyBool false => lit "False"
  | PyNone => lit "None"
  end.

End Py.

Import Py.

(** ** The vector store: the part of chromadb's client the notebook calls *)

Module Chroma.

Section Store.
(** The scalar type of an embedding's components (Python floats); the
    store never inspects them. *)
Context {F : Type}.

(** One record of a collection.  The fields are the keyword arguments of
    [Collection.add]; every call of the notebook passes one-element
    lists, so a call carries exactly one record. *)
Record Entry := {
  ids : str;
  embeddings : list F;
  metadatas : gmap str str;
  documents : option str;
}.

(** A collection: its name, the metadata given at creation, the
    dimension fixed by the first record, and its records in insertion
    order. *)
Record Collection := {
  name : str;
  metadata : gmap str str;
  dimension : option nat;
  records : list Entry;
}.

Definition has_id (i : str) (e : Entry) : bool := bool_decide (ids e = i).

(** [collection.get(ids=[i])]. *)
Definition get (c : Collection) (i : str) : option Entry :=
  find (has_id i) (records c).

Definition count (c : Collection) (i : str) : nat :=
  length (filter (λ e, ids e = i) (records c)).

Definition dimension_ok (c : Collection) (d : nat) : bool :=
  match dimension c with
  | None => true
  | Some d' => bool_decide (d' = d)
  end.

(** [collection.add(...)] with one record, as chromadb documents and
    implements it: an embedding whose length differs from the collection's
    dimension is rejected with [InvalidDimensionException]; a record whose
    id already exists in the collection is ignored and no exception is
    raised (the stored record is kept); any other record is appended.  The
    first accepted call fixes the dimension. *)
Definition add (c : Collection) (e : Entry) : exn + Collection :=
  let d := length (embeddings e) in
  if dimension_ok c d then
    inr {| name := name c;
           metadata := metadata c;
           dimension := Some d;
           records := if existsb (has_id (ids e)) (records c)
                      then records c
                      else records c ++ [e] |}
  else inl InvalidDimensionException.

(** The persistent client: the collections of the store, by name. *)
Definition new_collection (n : str) (md : gmap str str) : Collection :=
  {| name := n; metadata := md; dimension := None; records := [] |}.

(** [client.get_or_create_collection(name=n, metadata=md)]: the
    collection of that name if the store has one (its metadata is left as
    it is), else a new empty one with metadata [md]; returns the store and
    the collection. *)
Definition get_or_create_collection
    (db : gmap str Collection) (n : str) (md : gmap str str)
    : gmap str Collection * Collection :=
  match db !! n with
  | Some c => (db, c)
  | None => (<[n := new_collection n md]> db, new_collection n md)
  end.

End Store.

Arguments Entry : clear implicits.
Arguments Collection : clear implicits.

End Chroma.

Import Chroma.

(** ** The notebook *)

Module Notebook.

(** One element of [text_data]: a JSON object with the three keys the
    text loop reads. *)
Record Item := {
  Id : scalar;
  Name : str;
  Description : str;
}.

Section Cells.
Context {F : Type}.

(** What the cells reach outside the notebook: the two embedding
    generators of [src.engine] (their result or the exception they
    raise), the files [open(path, 'rb').read()] finds, Python's case
    mapping outside ASCII, and the platform of [os.path]. *)
Record Env := {
  generate_text_embedding : str → exn + list F;
  generate_image_embedding : str → exn + list F;
  open_rb : str → option bytes;
  unicode_lower : str → str;
  os_name : platform;
}.

(** The value bound to the global name [image_embedding]: the
    [ImageEmbeddingGenerator] instance of cell e2388251, or a vector
    once the image loop has assigned to the same name. *)
Inductive object :=
| Generator
| Vector (v : list F).

(** The state the cells share: the persistent store behind [client] and
    the binding of [image_embedding]. *)
Record Kernel := {
  client : gmap str (Collection F);
  image_embedding : object;
}.

(** The calls a cell makes outside the notebook, in order. *)
Inductive event :=
| OpenRead (path : str)
| GenerateText (text : str)
| GenerateImage (arg : str)
| Add (collection : str) (e : Entry F).

(** A cell: from a kernel state to a result or a raised exception, the
    state it leaves (mutations made before an exception stay) and the
    calls it made. *)
Definition M (A : Type) : Type := Kernel → (exn + A) * Kernel * list event.

Definition ret {A} (x : A) : M A := λ k, (inr x, k, []).

Definition bind {A B} (m : M A) (f : A → M B) : M B := λ k,
  match m k with
  | (inl e, k1, t1) => (inl e, k1, t1)
  | (inr x, k1, t1) =>
      match f x k1 with
      | (r, k2, t2) => (r, k2, t1 ++ t2)
      end
  end.

Definition emit (ev : event) : M unit := λ k, (inr tt, k, [ev]).

Definition lift {A} (r : exn + A) : M A := λ k, (r, k, []).

Notation "'let!' x ':=' m 'in' f" := (bind m (λ x, f))
  (at level 10, x name, m at level 100, f at level 200, only parsing).
Notation "m >> f" := (bind m (λ _, f))
  (at level 100, f at level 200, right associativity, only parsing).

(** [for x in l: body(x)] *)
Fixpoint for_each {A} (body : A → M unit) (l : list A) : M unit :=
  match l with
  | [] => ret tt
  | x :: rest => body x >> for_each body rest
  end.

Definition outcome {A} (r : (exn + A) * Kernel * list event) : exn + A := r.1.1.
Definition final {A} (r : (exn + A) * Kernel * list event) : Kernel := r.1.2.
Definition calls {A} (r : (exn + A) * Kernel * list event) : list event := r.2.

Variable env : Env.

(** *** Cell e989ee67: the two collections *)

Definition cosine : gmap str str := {[ lit "hnsw:space" := lit "cosine" ]}.

(** The handles [text_collection] and [image_collection] that the cell
    binds designate the collections of these names in the store. *)
Definition text_collection : str := lit "text_chroma_db".
Definition image_collection : str := lit "image_chroma_db".

Definition create_collections : M unit := λ k,
  let db1 := (get_or_create_collection (client k) (lit "text_chroma_db") cosine).1 in
  let db2 := (get_or_create_collection db1 (lit "image_chroma_db") cosine).1 in
  (inr tt, {| client := db2; image_embedding := image_embedding k |}, []).

(** [handle.add(...)] *)
Definition collection_add (handle : str) (e : Entry F) : M unit :=
  emit (Add handle e) >>
  λ k, match client k !! handle with
       | None => (inl InvalidCollectionException, k, [])
       | Some c =>
           match add c e with
           | inl err => (inl err, k, [])
           | inr c' => (inr tt, {| client := <[handle := c']> (client k);
                                   image_embedding := image_embedding k |}, [])
           end
       end.

(** *** Cell e0ff090a *)

Definition image_extensions : list str :=
  [lit ".jpg"; lit ".jpeg"; lit ".png"; lit ".bmp"; lit ".gif"].

(** *** Cell 2bf88a3d *)

Definition image_to_base64 (image_path : str) : M str :=
  emit (OpenRead image_path) >>
  let! image_file := lift (from_option inr (inl OSError) (open_rb env image_path)) in
  lift (from_option inr (inl UnicodeDecodeError) (utf8_decode (b64encode image_file))).

(** *** Cell 3de907a6: the text loop *)

Definition composite_text (item : Item) : str :=
  (lit "Tên sách: " ++ Name item ++ [newline])
  ++ (lit "Nội dung sách: " ++ Description item).

Definition text_entry (item : Item) (embedding : list F) : Entry F :=
  {| embeddings := embedding;
     documents := Some (composite_text item);
     metadatas := {[ lit "id" := py_str (Id item);
                     lit "name" := Name item;
                     lit "description" := Description item ]};
     ids := py_str (Id item) |}.

Definition text_body (item : Item) : M unit :=
  let text := composite_text item in
  let! embedding := (emit (GenerateText text) >>
                     lift (generate_text_embedding env text)) in
  collection_add text_collection (text_entry item embedding).

Definition text_indexing_loop (text_data : list Item) : M unit :=
  for_each text_body text_data.

(** *** Cell 37501ace: the image loop *)

Definition image_entry (subdir file : str) (embedding : list F) : Entry F :=
  {| embeddings := embedding;
     documents := None;
     metadatas := {[ lit "product_id" := slice_from 5 (basename (os_name env) subdir);
                     lit "image_id" := slice_to_minus 4 (basename (os_name env) file) ]};
     ids := slice_to_minus 4 (basename (os_name env) file) |}.

(** [image_embedding.generate_image_embedding]: the attribute lookup on
    whatever the global name is bound to. *)
Definition getattr_generate_image_embedding : M (str → M (list F)) := λ k,
  match image_embedding k with
  | Generator =>
      (inr (λ arg, emit (GenerateImage arg) >>
                   lift (generate_image_embedding env arg)), k, [])
  | Vector _ => (inl AttributeError, k, [])
  end.

Definition assign_image_embedding (v : list F) : M unit := λ k,
  (inr tt, {| client := client k; image_embedding := Vector v |}, []).

Definition is_image (file : str) : bool :=
  endswith_any (lower (unicode_lower env) file) image_extensions.

Definition image_body (subdir file : str) : M unit :=
  if is_image file then
    let full_path := join (os_name env) subdir file in
    let! base64_image := image_to_base64 full_path in
    let! generate := getattr_generate_image_embedding in
    let! embedding := generate base64_image in
    assign_image_embedding embedding >>
    collection_add image_collection (image_entry subdir file embedding)
  else ret tt.

(** [walk] is what [os.walk(image_data)] yields: for each directory its
    path, its sub-directory names and its file names. *)
Definition image_indexing_loop (walk : list (str * list str * list str)) : M unit :=
  for_each (λ '(subdir, _, files), for_each (image_body subdir) files) walk.

(** The kernel when cell e989ee67 starts: the store found on disk, and
    [image_embedding] bound by cell e2388251. *)
Definition start (db : gmap str (Collection F)) : Kernel :=
  {| client := db; image_embedding := Generator |}.

(** *** Notions used to state the properties of the loops *)

(** The calls one item gives rise to. *)
Definition text_calls (item : Item) : list event :=
  GenerateText (composite_text item)
    :: match generate_text_embedding env (composite_text item) with
       | inl _ => []
       | inr v => [Add text_collection (text_entry item v)]
       end.

(** The item whose record ends up stored under id [i] when no record had
    that id before the loop: the first item of the input with that id. *)
Definition first_entry (i : str) (items : list Item) : option (Entry F) :=
  match find (λ it, bool_decide (py_str (Id it) = i)) items with
  | Some it =>
      match generate_text_embedding env (composite_text it) with
      | inr v => Some (text_entry it v)
      | inl _ => None
      end
  | None => None
  end.

(** What a call of the image loop can be, for the file [file] found in
    the directory [subdir]. *)
Definition image_call (subdir file : str) (ev : event) : Prop :=
  let path := join (os_name env) subdir file in
  ev = OpenRead path
  ∨ ∃ image_file, open_rb env path = Some image_file
      ∧ let arg := Byte.to_N <$> b64encode image_file in
        ev = GenerateImage arg
        ∨ ∃ v, generate_image_embedding env arg = inr v
               ∧ ev = Add image_collection (image_entry subdir file v).

(** The image files of a walk, each with its directory, in loop order. *)
Definition image_files (walk : list (str * list str * list str)) : list (str * str) :=
  walk ≫= λ '(subdir, _, files), pair subdir <$> List.filter is_image files.

End Cells.

Arguments Env : clear implicits.
Arguments Kernel : clear implicits.
Arguments event : clear implicits.
Arguments object : clear implicits.

End Notebook.

Import Notebook.

(** ** Sample inputs

    A small catalog, a small image tree and stand-ins for the generators,
    on which the cells can be run. *)

Module Sample.

(** Stand-ins for the two generators: vectors of two and three components
    computed from the length of the input; the text generator raises
    [InputError] on a composite text whose description is empty. *)
Definition text_generator (text : str) : exn + list Z :=
  if endswith text (lit "Nội dung sách: ") then inl (GeneratorError InputError)
  else inr [Z.of_nat (length text); 1%Z].

Definition image_generator (arg : str) : exn + list Z :=
  inr [Z.of_nat (length arg); 2%Z; 3%Z].

Definition images_root : str := lit "data" ++ backslash :: lit "images-1-1100".
Definition prod_42 : str := images_root ++ backslash :: lit "prod_42".

Definition files : list (str * bytes) :=
  [ (prod_42 ++ backslash :: lit "a.jpg", ["M"; "a"; "n"]%byte);
    (prod_42 ++ backslash :: lit "b.png", ["M"; "a"]%byte);
    (prod_42 ++ backslash :: lit "photo.jpeg", ["M"]%byte);
    (prod_42 ++ backslash :: lit "notes.txt", ["h"; "i"]%byte) ].

Definition env : Env Z := {|
  generate_text_embedding := text_generator;
  generate_image_embedding := image_generator;
  open_rb := λ path, snd <$> find (λ f, bool_decide (f.1 = path)) files;
  unicode_lower := λ s, s;
  os_name := Windows;
|}.

Definition item (n : Z) (name description : string) : Item :=
  {| Id := PyInt n; Name := lit name; Description := lit description |}.

Definition atlas : Item := item 7 "Atlas" "A map".
Definition atlas_again : Item := item 7 "Atlas, 2nd edition" "A newer map".

Definition batch : list Item :=
  [ item 1 "One" "first"; item 2 "Two" "second";
    {| Id := PyInt 3; Name := lit "Three"; Description := [] |};
    item 4 "Four" "fourth"; item 5 "Five" "fifth" ].

Definition walk_one : list (str * list str * list str) :=
  [ (images_root, [lit "prod_42"], []);
    (prod_42, [], [lit "a.jpg"; lit "notes.txt"]) ].

Definition walk_two : list (str * list str * list str) :=
  [ (images_root, [lit "prod_42"], []);
    (prod_42, [], [lit "a.jpg"; lit "notes.txt"; lit "b.png"]) ].

Definition walk_jpeg : list (str * list str * list str) :=
  [ (prod_42, [], [lit "photo.jpeg"]) ].

(** The kernel after cell e989ee67 on an empty store. *)
Definition ready : Kernel Z := final (create_collections (start ∅)).

End Sample.

(** ** Notions used to state further properties *)

Section Notions.
Context {F : Type}.

(** Every stored embedding has the collection's dimension. *)
Definition uniform_dimension (c : Collection F) : Prop :=
  ∀ r, r ∈ records c → dimension c = Some (length (embeddings r)).

(** [c'] is [c] after some calls of [add]: nothing stored is removed or
    changed, and what [add] maintains is maintained. *)
Definition extends (c c' : Collection F) : Prop :=
  records c `prefix_of` records c'
  ∧ name c' = name c ∧ metadata c' = metadata c
  ∧ (∀ d, dimension c = Some d → dimension c' = Some d)
  ∧ (NoDup (ids <$> records c) → NoDup (ids <$> records c'))
  ∧ (uniform_dimension c → uniform_dimension c').

(** Between two kernel states only the collection behind [handle] has
    changed, and by calls of [add] only. *)
Definition touches_only (handle : str) (k k' : Kernel F) : Prop :=
  (∀ n, n ≠ handle → client k' !! n = client k !! n)
  ∧ (client k !! handle = None → client k' !! handle = None)
  ∧ (∀ c, client k !! handle = Some c →
       ∃ c', client k' !! handle = Some c' ∧ extends c c').

Definition is_add (ev : event F) : bool :=
  match ev with Add _ _ => true | _ => false end.

Definition is_generate_image (ev : event F) : bool :=
  match ev with GenerateImage _ => true | _ => false end.

(** The exception of an iteration of the image loop that finds
    [image_embedding] bound to a vector: the file is opened first. *)
Definition vector_error (env : Env F) (path : str) : exn :=
  match open_rb env path with
  | Some _ => AttributeError
  | None => OSError
  end.

End Notions.

(** The 24-bit value of a group of three octets. *)
Definition group (a b c : N) : N := a * 65536 + b * 256 + c.

(** A string of the source made of ASCII characters only. *)
Definition ascii_string (s : string) : Prop :=
  Forall (λ b, (Byte.to_N b <? 128) = true) (list_byte_of_string s).

(** * Properties *)

(** ** Strings, paths and base64 *)

Section PyFacts.

Implicit Types (s p suffix : str) (pf : platform).

Lemma endswith_suffix s suffix :
  endswith s suffix = true ↔ suffix `suffix_of` s.
Proof.
  unfold endswith. rewrite bool_decide_eq_true. split.
  - intros H. exists (take (length s - length suffix) s).
    rewrite <- H at 2. by rewrite take_drop.
  - intros [pre ->]. rewrite length_app.
    replace (length pre + length suffix - length suffix)%nat
      with (length pre) by lia.
    apply drop_app_length.
Qed.

Lemma endswith_any_spec s (suffixes : list str) :
  endswith_any s suffixes = true
  ↔ ∃ suffix, suffix ∈ suffixes ∧ suffix `suffix_of` s.
Proof.
  unfold endswith_any. rewrite existsb_exists. split.
  - intros (x & Hx & E). exists x. split; [by apply list_elem_of_In|].
    by apply endswith_suffix.
  - intros (x & Hx & E). exists x. split; [by apply list_elem_of_In|].
    by apply endswith_suffix.
Qed.

(** Removing the last four code points of [stem ++ ext] leaves [stem]
    exactly when [ext] has four code points. *)
Lemma slice_to_minus_app n s ext :
  length ext = n → slice_to_minus n (s ++ ext) = s.
Proof.
  intros <-. unfold slice_to_minus. rewrite length_app.
  replace (length s + length ext - length ext)%nat with (length s) by lia.
  apply take_app_length.
Qed.

Lemma basename_no_sep pf p :
  existsb (is_sep pf) p = false → basename pf p = p.
Proof. destruct p as [|c r]; simpl; [done|]. by intros ->. Qed.

Lemma basename_after_sep pf a c nm :
  is_sep pf c = true → existsb (is_sep pf) nm = false →
  basename pf (a ++ c :: nm) = nm.
Proof.
  intros Hc Hn. induction a as [|x a IH]; simpl.
  - rewrite Hc. simpl. by apply basename_no_sep.
  - rewrite existsb_app. simpl. rewrite Hc.
    rewrite orb_true_r, orb_true_r. exact IH.
Qed.

Lemma is_sep_sep pf : is_sep pf (sep pf) = true.
Proof. by destruct pf. Qed.

(** The last component of [os.path.join(a, nm)] is [nm] when [nm] is a
    plain name: the walk's [subdir] of a directory named [nm] has
    [basename] [nm]. *)
Lemma basename_join pf a nm :
  a ≠ [] → nm ≠ [] → existsb (is_sep pf) nm = false →
  basename pf (join pf a nm) = nm.
Proof.
  intros Ha Hnm Hn. destruct nm as [|c r]; [done|].
  assert (Hc : is_sep pf c = false).
  { simpl in Hn. by destruct (is_sep pf c). }
  unfold join. rewrite Hc.
  destruct (last a) as [l|] eqn:El.
  - apply last_Some in El as [a' ->].
    destruct (is_sep pf l) eqn:Hl.
    + rewrite <- app_assoc. simpl. by apply basename_after_sep.
    + by apply basename_after_sep; [apply is_sep_sep|].
  - by apply last_None in El.
Qed.

Lemma get_in_list n (s : string) a :
  String.get n s = Some a → a ∈ list_ascii_of_string s.
Proof.
  revert n. induction s as [|c s IH]; intros [|n]; simpl; try done.
  - intros [= ->]. left.
  - intros H. right. by eapply IH.
Qed.

Lemma b64_char_ascii x : (Byte.to_N (b64_char x) <? 128) = true.
Proof.
  unfold b64_char. destruct (String.get _ _) as [a|] eqn:E; [|done].
  apply get_in_list in E.
  assert (H : forallb (λ a, Byte.to_N (byte_of_ascii a) <? 128)
                (list_ascii_of_string b64_alphabet) = true) by reflexivity.
  rewrite forallb_forall in H. by apply H, list_elem_of_In.
Qed.

Lemma b64encode_ascii (bs : bytes) :
  Forall (λ b, (Byte.to_N b <? 128) = true) (b64encode bs).
Proof.
  assert (H : ∀ n (bs : bytes), (length bs < n)%nat →
              Forall (λ b, (Byte.to_N b <? 128) = true) (b64encode bs)).
  { induction n as [|n IH]; intros l Hl; [lia|].
    destruct l as [|a [|b [|c rest]]]; simpl.
    - constructor.
    - repeat constructor; apply b64_char_ascii || done.
    - repeat constructor; apply b64_char_ascii || done.
    - repeat (constructor; [apply b64_char_ascii|]).
      apply IH. simpl in Hl. lia. }
  by apply (H (S (length bs))); lia.
Qed.

Lemma utf8_decode_ascii (bs : bytes) :
  Forall (λ b, (Byte.to_N b <? 128) = true) bs →
  utf8_decode bs = Some (Byte.to_N <$> bs).
Proof.
  induction 1 as [|b bs Hb _ IH]; [done|].
  simpl. rewrite Hb, IH. done.
Qed.

(** Decoding the output of [b64encode] never raises: it is ASCII, one
    code point per octet. *)
Lemma decode_b64encode (bs : bytes) :
  utf8_decode (b64encode bs) = Some (Byte.to_N <$> b64encode bs).
Proof. apply utf8_decode_ascii, b64encode_ascii. Qed.

(** The encoder has four output octets for every three input octets,
    the last group padded. *)
Lemma b64encode_length (bs : bytes) :
  length (b64encode bs) = (4 * ((length bs + 2) / 3))%nat.
Proof.
  assert (H : ∀ n (bs : bytes), (length bs < n)%nat →
              length (b64encode bs) = (4 * ((length bs + 2) / 3))%nat).
  { induction n as [|n IH]; intros l Hl; [lia|].
    destruct l as [|a [|b [|c rest]]]; [done..|].
    cbn [b64encode length] in *. rewrite IH by lia.
    replace (S (S (S (length rest))) + 2)%nat
      with (length rest + 2 + 1 * 3)%nat by lia.
    rewrite Nat.div_add by lia. lia. }
  by apply (H (S (length bs))); lia.
Qed.

Example lit_prod_42 : lit "prod_42" = [112; 114; 111; 100; 95; 52; 50].
Proof. by vm_compute. Qed.

Example lit_label : lit "Tên sách: " = [84; 234; 110; 32; 115; 225; 99; 104; 58; 32].
Proof. by vm_compute. Qed.

Example str_of_int_42 :
  str_of_int 42 = lit "42" ∧ str_of_int 0 = lit "0" ∧ str_of_int (-7) = lit "-7".
Proof. split_and!; by vm_compute. Qed.

Example basename_of_walk_dir : basename Windows Sample.prod_42 = lit "prod_42".
Proof. by vm_compute. Qed.

Example basename_posix_keeps_backslash :
  basename Posix Sample.prod_42 = Sample.prod_42
  ∧ basename Posix (lit "data/images/prod_42") = lit "prod_42".
Proof. split; by vm_compute. Qed.

Example join_walk_dir :
  join Windows Sample.images_root (lit "prod_42") = Sample.prod_42.
Proof. by vm_compute. Qed.

Example b64encode_Man :
  b64encode ["M"; "a"; "n"]%byte = ["T"; "W"; "F"; "u"]%byte
  ∧ b64encode ["M"; "a"]%byte = ["T"; "W"; "E"; "="]%byte
  ∧ b64encode ["M"]%byte = ["T"; "Q"; "="; "="]%byte.
Proof. split_and!; by vm_compute. Qed.

Example utf8_decode_strict :
  utf8_decode [xc3; xaa]%byte = Some [234]
  ∧ utf8_decode [xe1; xbb; x99]%byte = Some [7897]
  ∧ utf8_decode [xff]%byte = None
  ∧ utf8_decode [xc0; x80]%byte = None
  ∧ utf8_decode [xed; xa0; x80]%byte = None.
Proof. split_and!; by vm_compute. Qed.

Example endswith_case :
  endswith (lower (λ s, s) (lit "COVER.JPG")) (lit ".jpg") = true
  ∧ endswith (lit "jpg") (lit ".jpg") = false
  ∧ slice_to_minus 4 (lit "jpg") = []
  ∧ slice_from 5 (lit "abc") = [].
Proof. split_and!; by vm_compute. Qed.

End PyFacts.

(** ** The vector store *)

Section ChromaFacts.
Context {F : Type}.
Implicit Types (c : Collection F) (e : Entry F) (i : str) (l : list (Entry F)).

Lemma existsb_has_id l i :
  existsb (has_id i) l = true ↔ i ∈ ids <$> l.
Proof.
  induction l as [|x l IH]; simpl.
  - split; [done|]. by intros ?%elem_of_nil.
  - rewrite orb_true_iff, IH, elem_of_cons. unfold has_id.
    rewrite bool_decide_eq_true. intuition congruence.
Qed.

Lemma find_has_id_None l i : find (has_id i) l = None ↔ i ∉ ids <$> l.
Proof.
  induction l as [|x l IH]; simpl.
  - split; [|done]. intros _ ?%elem_of_nil. done.
  - unfold has_id at 1. rewrite not_elem_of_cons.
    case_bool_decide; intuition congruence.
Qed.

Lemma find_has_id_Some l i e : find (has_id i) l = Some e → ids e = i ∧ e ∈ l.
Proof.
  induction l as [|x l IH]; simpl; [done|].
  unfold has_id at 1. case_bool_decide.
  - intros [= <-]. split; [done|left].
  - intros [? ?]%IH. split; [done|by right].
Qed.

Lemma find_has_id_app l l' i :
  find (has_id i) (l ++ l')
  = match find (has_id i) l with
    | Some e => Some e
    | None => find (has_id i) l'
    end.
Proof. induction l as [|x l IH]; simpl; [done|]. by destruct (has_id i x). Qed.

Lemma add_inr c e c' :
  add c e = inr c' →
  dimension_ok c (length (embeddings e)) = true
  ∧ c' = {| name := name c; metadata := metadata c;
            dimension := Some (length (embeddings e));
            records := if existsb (has_id (ids e)) (records c)
                       then records c else records c ++ [e] |}.
Proof.
  unfold add. destruct (dimension_ok _ _); [|done]. by intros [= <-].
Qed.

(** The store after [add]: a stored record is never replaced; the new
    record is visible only if its id was free. *)
Lemma get_add c e c' i :
  add c e = inr c' →
  get c' i = match get c i with
             | Some old => Some old
             | None => if bool_decide (ids e = i) then Some e else None
             end.
Proof.
  intros [_ ->]%add_inr. unfold get. simpl.
  destruct (existsb (has_id (ids e)) (records c)) eqn:Ex.
  - destruct (find (has_id i) (records c)) eqn:Ef; [done|].
    case_bool_decide as Hi; [|done]. subst i.
    apply find_has_id_None in Ef. by apply existsb_has_id in Ex.
  - rewrite find_has_id_app. simpl. unfold has_id at 2.
    by destruct (find (has_id i) (records c)).
Qed.

Lemma add_records_present c e c' :
  add c e = inr c' → ids e ∈ ids <$> records c'.
Proof.
  intros [_ ->]%add_inr. simpl.
  destruct (existsb (has_id (ids e)) (records c)) eqn:Ex.
  - by apply existsb_has_id.
  - rewrite fmap_app. apply elem_of_app. right. simpl. left.
Qed.

(** Ids stay unique. *)
Lemma add_NoDup c e c' :
  NoDup (ids <$> records c) → add c e = inr c' → NoDup (ids <$> records c').
Proof.
  intros Hnd [_ ->]%add_inr. simpl.
  destruct (existsb (has_id (ids e)) (records c)) eqn:Ex; [done|].
  rewrite fmap_app. apply NoDup_app. split_and!; [done| |apply NoDup_singleton].
  intros x Hx [->|[]%elem_of_nil]%elem_of_cons.
  apply existsb_has_id in Hx. congruence.
Qed.

Lemma count_not_in l i : i ∉ ids <$> l → length (filter (λ e, ids e = i) l) = 0%nat.
Proof.
  induction l as [|x l IH]; simpl; [done|].
  intros [? ?]%not_elem_of_cons. rewrite filter_cons_False by done. by apply IH.
Qed.

Lemma count_NoDup c i :
  NoDup (ids <$> records c) → i ∈ ids <$> records c → count c i = 1%nat.
Proof.
  unfold count. induction (records c) as [|x l IH]; simpl.
  - by intros _ ?%elem_of_nil.
  - intros [Hx Hnd]%NoDup_cons [->|Hi]%elem_of_cons.
    + rewrite filter_cons_True by done. simpl. by rewrite count_not_in.
    + rewrite filter_cons_False by (intros E; apply Hx; by rewrite E). by apply IH.
Qed.

(** A second [add] under an id the store already holds changes nothing. *)
Lemma add_again c e1 c1 e2 c2 :
  add c e1 = inr c1 → ids e2 = ids e1 → add c1 e2 = inr c2 → c2 = c1.
Proof.
  intros H1 Hid H2. pose proof (add_records_present _ _ _ H1) as Hin.
  apply add_inr in H2 as [Hd ->].
  apply add_inr in H1 as [_ ->]. simpl in *.
  unfold dimension_ok in Hd. simpl in Hd. apply bool_decide_eq_true in Hd.
  rewrite <- Hd. f_equal.
  rewrite Hid. apply existsb_has_id in Hin. by rewrite Hin.
Qed.

Lemma get_or_create_twice (db : gmap str (Collection F)) n md md' :
  get_or_create_collection (get_or_create_collection db n md).1 n md'
  = get_or_create_collection db n md.
Proof.
  unfold get_or_create_collection. destruct (db !! n) as [c|] eqn:E; simpl.
  - by rewrite E.
  - by rewrite lookup_insert_eq.
Qed.

Lemma get_or_create_lookup (db : gmap str (Collection F)) n md m :
  (get_or_create_collection db n md).1 !! m
  = if bool_decide (n = m)
    then Some (default (new_collection n md) (db !! n))
    else db !! m.
Proof.
  unfold get_or_create_collection. destruct (db !! n) as [c|] eqn:E; simpl.
  - case_bool_decide; by subst.
  - rewrite lookup_insert. case_decide; case_bool_decide; done.
Qed.

End ChromaFacts.

(** ** The cells *)

Section NotebookFacts.
Context {F : Type} (env : Env F).
Implicit Types (k : Kernel F) (item : Item) (items : list Item).

Lemma for_each_cons {A} (body : A → M unit) x rest k :
  for_each body (x :: rest) k
  = match body x k with
    | (inl err, k1, t1) => (inl err, k1, t1)
    | (inr _, k1, t1) =>
        (outcome (for_each body rest k1), final (for_each body rest k1),
         t1 ++ calls (for_each body rest k1))
    end.
Proof.
  simpl. unfold bind. destruct (body x k) as [[[err|[]] k1] t1]; [done|].
  by destruct (for_each body rest k1) as [[r k2] t2].
Qed.

Lemma for_each_app {A} (body : A → M unit) l1 l2 k :
  for_each body (l1 ++ l2) k
  = match for_each body l1 k with
    | (inl err, k1, t1) => (inl err, k1, t1)
    | (inr _, k1, t1) =>
        (outcome (for_each body l2 k1), final (for_each body l2 k1),
         t1 ++ calls (for_each body l2 k1))
    end.
Proof.
  revert k. induction l1 as [|x l1 IH]; intros k.
  - simpl. by destruct (for_each body l2 k) as [[r k2] t2].
  - rewrite <- app_comm_cons, !for_each_cons.
    destruct (body x k) as [[[err|[]] k1] t1]; [done|].
    rewrite IH. unfold outcome, final, calls.
    destruct (for_each body l1 k1) as [[[err|[]] k2] t2]; simpl; [done|].
    by rewrite app_assoc.
Qed.

(** A loop over a filtered sequence: elements on which the body does
    nothing can be left out. *)
Lemma for_each_filter {A} (body : A → M unit) (keep : A → bool) l k :
  (∀ x, keep x = false → body x = ret tt) →
  for_each body l k = for_each body (List.filter keep l) k.
Proof.
  intros Hskip. revert k. induction l as [|x l IH]; intros k; [done|].
  simpl List.filter. destruct (keep x) eqn:E.
  - rewrite !for_each_cons. destruct (body x k) as [[[err|[]] k1] t1]; [done|].
    by rewrite IH.
  - rewrite for_each_cons, (Hskip x E). unfold ret. rewrite IH.
    by destruct (for_each body (List.filter keep l) k) as [[r k2] t2].
Qed.

(** *** The text loop *)

(** One iteration, case by case. *)
Lemma text_body_run item k :
  text_body env item k
  = let text := composite_text item in
    match generate_text_embedding env text with
    | inl err => (inl err, k, [GenerateText text])
    | inr v =>
        let e := text_entry item v in
        match client k !! text_collection with
        | None => (inl InvalidCollectionException, k,
                   [GenerateText text; Add text_collection e])
        | Some c =>
            match add c e with
            | inl err => (inl err, k, [GenerateText text; Add text_collection e])
            | inr c' =>
                (inr tt,
                 {| client := <[text_collection := c']> (client k);
                    image_embedding := image_embedding k |},
                 [GenerateText text; Add text_collection e])
            end
        end
    end.
Proof.
  unfold text_body, collection_add, bind, emit, lift. simpl.
  destruct (generate_text_embedding env (composite_text item)) as [err|v]; [done|].
  destruct (client k !! text_collection) as [c|]; [|done].
  by destruct (add c (text_entry item v)) as [err|c'].
Qed.

Lemma text_body_calls item k : calls (text_body env item k) = text_calls env item.
Proof.
  rewrite text_body_run. unfold text_calls. simpl.
  destruct (generate_text_embedding env (composite_text item)) as [err|v]; [done|].
  destruct (client k !! text_collection) as [c|]; [|done].
  by destruct (add c (text_entry item v)) as [err|c'].
Qed.

(** The loop's calls are those of a prefix of the input, in input order,
    and of the whole input when the loop completes. *)
Lemma text_loop_calls items k :
  ∃ n, calls (text_indexing_loop env items k) = mjoin (text_calls env <$> take n items)
       ∧ (outcome (text_indexing_loop env items k) = inr tt → n = length items).
Proof.
  unfold text_indexing_loop. revert k.
  induction items as [|item items IH]; intros k.
  - exists 0%nat. done.
  - rewrite for_each_cons. pose proof (text_body_calls item k) as Hc.
    destruct (text_body env item k) as [[[err|[]] k1] t1]; unfold calls in Hc;
      simpl in Hc; subst t1.
    + exists 1%nat. simpl. by rewrite ?take_0, ?app_nil_r.
    + destruct (IH k1) as (n & Hn & Hout). exists (S n). simpl.
      split; [by rewrite Hn|]. intros H. f_equal. by apply Hout.
Qed.

Lemma text_loop_call_origin items k ev :
  ev ∈ calls (text_indexing_loop env items k) →
  ∃ item, item ∈ items ∧ ev ∈ text_calls env item.
Proof.
  destruct (text_loop_calls items k) as (n & -> & _).
  intros (l & Hev & (item & -> & Hi)%list_elem_of_fmap)%list_elem_of_join.
  exists item. split; [|done].
  rewrite <- (take_drop n items). apply elem_of_app. by left.
Qed.

Lemma text_loop_store items k c :
  client k !! text_collection = Some c →
  outcome (text_indexing_loop env items k) = inr tt →
  ∃ c', final (text_indexing_loop env items k)
        = {| client := <[text_collection := c']> (client k);
             image_embedding := image_embedding k |}
    ∧ (NoDup (ids <$> records c) → NoDup (ids <$> records c'))
    ∧ ∀ i, get c' i = match get c i with
                      | Some old => Some old
                      | None => first_entry env i items
                      end.
Proof.
  unfold text_indexing_loop. revert k c.
  induction items as [|item items IH]; intros k c Hc.
  - intros _. exists c. simpl. split_and!; [|done|].
    + rewrite insert_id by done. by destruct k.
    + intros i. by destruct (get c i).
  - rewrite for_each_cons, text_body_run. simpl. rewrite Hc.
    destruct (generate_text_embedding env (composite_text item)) as [err|v] eqn:Eg;
      [done|].
    destruct (add c (text_entry item v)) as [err|c1] eqn:Ea; [done|].
    unfold outcome at 1, final at 1. simpl.
    set (k1 := {| client := _; image_embedding := _ |}).
    intros Hout.
    destruct (IH k1 c1) as (c' & Hfin & Hnd & Hget);
      [apply lookup_insert_eq|done|].
    exists c'. split_and!.
    + rewrite Hfin. unfold k1. simpl. by rewrite insert_insert_eq.
    + intros H. eapply Hnd, add_NoDup; done.
    + intros i. rewrite Hget, (get_add _ _ _ i Ea).
      destruct (get c i) as [old|]; [done|]. unfold first_entry. simpl.
      case_bool_decide; [by rewrite Eg|done].
Qed.

(** Whatever the outcome, the collection after the loop holds the records
    it held before and records built from items of the input. *)
Lemma text_loop_records items k c :
  client k !! text_collection = Some c →
  ∃ c', client (final (text_indexing_loop env items k)) !! text_collection = Some c'
    ∧ ∀ r, r ∈ records c' →
        r ∈ records c
        ∨ ∃ item v, item ∈ items
            ∧ generate_text_embedding env (composite_text item) = inr v
            ∧ r = text_entry item v.
Proof.
  unfold text_indexing_loop. revert k c.
  induction items as [|item items IH]; intros k c Hc.
  - exists c. split; [done|]. by left.
  - rewrite for_each_cons, text_body_run. simpl. rewrite Hc.
    destruct (generate_text_embedding env (composite_text item)) as [err|v] eqn:Eg.
    { exists c. split; [done|]. by left. }
    destruct (add c (text_entry item v)) as [err|c1] eqn:Ea.
    { exists c. split; [done|]. by left. }
    unfold final at 1. simpl.
    set (k1 := {| client := _; image_embedding := _ |}).
    destruct (IH k1 c1) as (c' & Hfin & Hrec); [apply lookup_insert_eq|].
    exists c'. split; [done|]. intros r Hr.
    destruct (Hrec r Hr) as [Hr1|(it & w & Hit & Hw & ->)].
    + apply add_inr in Ea as [_ ->]. simpl in Hr1.
      destruct (existsb _ _); [by left|].
      apply elem_of_app in Hr1 as [?|Hr1]; [by left|].
      apply list_elem_of_singleton in Hr1 as ->.
      right. exists item, v. split_and!; [left|done..].
    + right. exists it, w. split_and!; [by right|done..].
Qed.

(** *** The image loop *)

Lemma image_body_skip subdir file :
  is_image env file = false → image_body env subdir file = ret tt.
Proof. unfold image_body. by intros ->. Qed.

(** One iteration on an image file, case by case. *)
Lemma image_body_run subdir file k :
  is_image env file = true →
  image_body env subdir file k
  = let path := join (os_name env) subdir file in
    match open_rb env path with
    | None => (inl OSError, k, [OpenRead path])
    | Some image_file =>
        let arg := Byte.to_N <$> b64encode image_file in
        match image_embedding k with
        | Vector _ => (inl AttributeError, k, [OpenRead path])
        | Generator =>
            match generate_image_embedding env arg with
            | inl err => (inl err, k, [OpenRead path; GenerateImage arg])
            | inr v =>
                let e := image_entry env subdir file v in
                let t := [OpenRead path; GenerateImage arg; Add image_collection e] in
                match client k !! image_collection with
                | None =>
                    (inl InvalidCollectionException,
                     {| client := client k; image_embedding := Vector v |}, t)
                | Some c =>
                    match add c e with
                    | inl err =>
                        (inl err,
                         {| client := client k; image_embedding := Vector v |}, t)
                    | inr c' =>
                        (inr tt,
                         {| client := <[image_collection := c']> (client k);
                            image_embedding := Vector v |}, t)
                    end
                end
            end
        end
    end.
Proof.
  intros Himg. unfold image_body. rewrite Himg.
  unfold image_to_base64, getattr_generate_image_embedding,
    assign_image_embedding, collection_add, bind, emit, lift. simpl.
  destruct (open_rb env _) as [image_file|]; simpl; [|done].
  rewrite decode_b64encode. simpl.
  destruct (image_embedding k); [|done].
  destruct (generate_image_embedding env _) as [err|v]; [done|]. simpl.
  destruct (client k !! image_collection) as [c|]; [|done].
  by destruct (add c _) as [err|c'].
Qed.

Lemma for_each_calls {A} (body : A → M unit) l k (ev : event F) :
  ev ∈ calls (for_each body l k) → ∃ x k', x ∈ l ∧ ev ∈ calls (body x k').
Proof.
  revert k. induction l as [|x l IH]; intros k.
  - by intros ?%elem_of_nil.
  - rewrite for_each_cons.
    destruct (body x k) as [[[err|[]] k1] t1] eqn:E; unfold calls at 1; simpl.
    + intros H. exists x, k. rewrite E. split; [left|done].
    + intros [H|H]%elem_of_app.
      * exists x, k. rewrite E. split; [left|done].
      * destruct (IH _ H) as (y & k' & Hy & Hev). exists y, k'. split; [by right|done].
Qed.

Lemma for_each_fmap {A B} (f : A → B) (body : B → M unit) l k :
  for_each body (f <$> l) k = for_each (λ x, body (f x)) l k.
Proof.
  revert k. induction l as [|x l IH]; intros k; [done|].
  rewrite fmap_cons, !for_each_cons.
  destruct (body (f x) k) as [[[err|[]] k1] t1]; [done|]. by rewrite IH.
Qed.

Lemma image_body_calls subdir file k ev :
  ev ∈ calls (image_body env subdir file k) →
  is_image env file = true ∧ image_call env subdir file ev.
Proof.
  destruct (is_image env file) eqn:Himg.
  2:{ rewrite image_body_skip by done. by intros ?%elem_of_nil. }
  rewrite image_body_run by done. simpl. intros Hev. split; [done|].
  unfold image_call. simpl.
  destruct (open_rb env _) as [image_file|] eqn:Eo.
  2:{ apply list_elem_of_singleton in Hev. by left. }
  destruct (image_embedding k).
  2:{ apply list_elem_of_singleton in Hev. by left. }
  destruct (generate_image_embedding env _) as [err|v] eqn:Eg.
  { apply elem_of_cons in Hev as [->|Hev]; [by left|].
    apply list_elem_of_singleton in Hev. right. exists image_file. by split; [|left]. }
  assert (Ht : ev ∈ [OpenRead (join (os_name env) subdir file);
                     GenerateImage (Byte.to_N <$> b64encode image_file);
                     Add image_collection (image_entry env subdir file v)]).
  { destruct (client k !! image_collection) as [c|]; [|done].
    by destruct (add c _). }
  clear Hev. apply elem_of_cons in Ht as [->|Ht]; [by left|].
  right. exists image_file. split; [done|].
  apply elem_of_cons in Ht as [->|Ht]; [by left|].
  apply list_elem_of_singleton in Ht. right. by exists v.
Qed.

(** Every call of the image loop comes from an image file of the walk. *)
Lemma image_loop_call_origin walk k ev :
  ev ∈ calls (image_indexing_loop env walk k) →
  ∃ subdir dirs files file,
    (subdir, dirs, files) ∈ walk ∧ file ∈ files
    ∧ is_image env file = true ∧ image_call env subdir file ev.
Proof.
  intros ([[subdir dirs] files] & k1 & Hw & Hev)%for_each_calls.
  apply for_each_calls in Hev as (file & k2 & Hf & Hev).
  apply image_body_calls in Hev as [Himg Hev].
  by exists subdir, dirs, files, file.
Qed.

(** The image loop is a single loop over the image files: every other
    file is skipped. *)
Lemma image_loop_flat walk k :
  image_indexing_loop env walk k
  = for_each (λ p, image_body env p.1 p.2) (image_files env walk) k.
Proof.
  unfold image_indexing_loop, image_files. revert k.
  induction walk as [|[[subdir dirs] files] walk IH]; intros k; [done|].
  rewrite for_each_cons, bind_cons, for_each_app, for_each_fmap. simpl.
  rewrite <- (for_each_filter (image_body env subdir) (is_image env))
    by apply image_body_skip.
  destruct (for_each (image_body env subdir) files k) as [[[err|[]] k1] t1]; [done|].
  by rewrite IH.
Qed.

(** For a file whose extension, dot included, has four code points, the
    stored id is the name without it. *)
Lemma image_id_four_point_extension subdir stem ext v :
  length ext = 4%nat → existsb (is_sep (os_name env)) (stem ++ ext) = false →
  ids (image_entry env subdir (stem ++ ext) v) = stem.
Proof.
  intros Hl Hs. simpl. rewrite basename_no_sep by done.
  by apply slice_to_minus_app.
Qed.

(** Once [image_embedding] names a vector, the next image file raises. *)
Lemma image_body_vector subdir file k v :
  image_embedding k = Vector v → is_image env file = true →
  ∃ err, image_body env subdir file k
         = (inl err, k, [OpenRead (join (os_name env) subdir file)]).
Proof.
  intros Hv Himg. rewrite image_body_run by done. simpl. rewrite Hv.
  destruct (open_rb env _); by eexists.
Qed.

Lemma image_body_rebinds subdir file k k1 t :
  is_image env file = true →
  image_body env subdir file k = (inr tt, k1, t) →
  ∃ v, image_embedding k1 = Vector v.
Proof.
  intros Himg. rewrite image_body_run by done. simpl.
  destruct (open_rb env _); [|done].
  destruct (image_embedding k); [|done].
  destruct (generate_image_embedding env _) as [err|v]; [done|].
  destruct (client k !! image_collection) as [c|]; [|done].
  destruct (add c _); [done|]. intros [= <- _]. by exists v.
Qed.

Lemma image_files_are_images walk p : p ∈ image_files env walk → is_image env p.2 = true.
Proof.
  unfold image_files.
  intros ([[subdir dirs] files] & Hp & _)%list_elem_of_bind.
  apply list_elem_of_fmap in Hp as (file & -> & Hf). simpl.
  apply list_elem_of_In, filter_In in Hf. tauto.
Qed.

(** The loop cannot get past a second image file. *)
Lemma image_loop_second_image_raises walk k :
  (2 ≤ length (image_files env walk))%nat →
  ∃ err, outcome (image_indexing_loop env walk k) = inl err.
Proof.
  rewrite image_loop_flat. pose proof (image_files_are_images walk) as Himg.
  intros Hlen.
  destruct (image_files env walk) as [|[d1 f1] [|[d2 f2] rest]];
    [simpl in Hlen; lia..|].
  clear Hlen. rewrite for_each_cons. cbn [fst snd].
  destruct (image_body env d1 f1 k) as [[[err|[]] k1] t1] eqn:E1; [by exists err|].
  destruct (image_body_rebinds d1 f1 k k1 t1) as [v Hv]; [|done|].
  { apply (Himg (d1, f1)). left. }
  cbv beta iota. rewrite for_each_cons. cbn [fst snd].
  destruct (image_body_vector d2 f2 k1 v Hv) as [err ->].
  { apply (Himg (d2, f2)). right. left. }
  by exists err.
Qed.

(** A loop that completes has had every item embedded. *)
Lemma text_loop_complete items k :
  outcome (text_indexing_loop env items k) = inr tt →
  ∀ item, item ∈ items →
    ∃ v, generate_text_embedding env (composite_text item) = inr v.
Proof.
  unfold text_indexing_loop. revert k.
  induction items as [|x items IH]; intros k Hout item Hin.
  - by apply elem_of_nil in Hin.
  - rewrite for_each_cons, text_body_run in Hout. simpl in Hout.
    destruct (generate_text_embedding env (composite_text x)) as [err|v] eqn:Eg;
      [done|].
    apply elem_of_cons in Hin as [->|Hin]; [by exists v|].
    destruct (client k !! text_collection) as [c|]; [|done].
    destruct (add c (text_entry x v)) as [err|c']; [done|].
    eapply IH; [exact Hout|exact Hin].
Qed.

Lemma text_calls_origin item (ev : event F) :
  ev ∈ text_calls env item →
  ev = GenerateText (composite_text item)
  ∨ ∃ v, generate_text_embedding env (composite_text item) = inr v
         ∧ ev = Add text_collection (text_entry item v).
Proof.
  unfold text_calls. intros [->|Hev]%elem_of_cons; [by left|]. right.
  destruct (generate_text_embedding env (composite_text item)) as [err|v].
  - by apply elem_of_nil in Hev.
  - apply list_elem_of_singleton in Hev. by exists v.
Qed.

End NotebookFacts.

(** ** The claims of the specification *)

(** C3, as the specification states it, fails: for name "Atlas" and
    description "A map" the composite text does not carry the labels
    "Name: " and "Description: ". *)
Lemma composite_text_labels_are_not_english :
  composite_text Sample.atlas
  ≠ lit "Name: Atlas" ++ newline :: lit "Description: A map".
Proof. vm_compute. discriminate. Qed.

(** C3, amended.  The text handed to the text generator, which is also the
    document stored with the entry, is a function of the item's name and
    description alone: the line "Tên sách: <name>", a line feed, then
    "Nội dung sách: <description>".  For name "Atlas" and description
    "A map" it is "Tên sách: Atlas", a line feed, "Nội dung sách: A map". *)
Theorem composite_text_is_two_labelled_lines {F : Type} (env : Env F) items k :
  (∀ item, composite_text item
           = lit "Tên sách: " ++ Name item ++ [newline]
             ++ lit "Nội dung sách: " ++ Description item)
  ∧ (∀ text, GenerateText text ∈ calls (text_indexing_loop env items k) →
       ∃ item, item ∈ items ∧ text = composite_text item)
  ∧ (∀ c e, Add c e ∈ calls (text_indexing_loop env items k) →
       ∃ item, item ∈ items ∧ documents e = Some (composite_text item))
  ∧ composite_text Sample.atlas
    = lit "Tên sách: Atlas" ++ newline :: lit "Nội dung sách: A map".
Proof.
  split_and!.
  - intros item. unfold composite_text. by rewrite <- !app_assoc.
  - intros text (item & Hin & Hev)%text_loop_call_origin.
    exists item. split; [done|].
    apply text_calls_origin in Hev as [[= ->]|(v & _ & [=])]. done.
  - intros c e (item & Hin & Hev)%text_loop_call_origin.
    exists item. split; [done|].
    by apply text_calls_origin in Hev as [[=]|(v & _ & [= -> ->])].
  - vm_compute. reflexivity.
Qed.

Lemma composite_text_is_two_labelled_lines_witness :
  ∃ item, item ∈ [Sample.atlas]
    ∧ lit "Tên sách: Atlas" ++ newline :: lit "Nội dung sách: A map"
      = composite_text item.
Proof.
  apply (proj1 (proj2 (composite_text_is_two_labelled_lines
                         Sample.env [Sample.atlas] Sample.ready))).
  vm_compute. left.
Defined.

(** C8.  Every record the text loop hands to the store's [add] goes to the
    text collection and is built from one item of the input: its id is the
    item's id (as a string), its metadata has exactly the keys [id],
    [name] and [description] with the item's values, its document is the
    composite text, and its embedding is what the generator returned for
    that text.  A loop that completes has handed over such a record for
    every item, and every record the loop leaves in the collection that
    was not there before is such a record. *)
Theorem text_entry_is_item_record {F : Type} (env : Env F) items k :
  (∀ c e, Add c e ∈ calls (text_indexing_loop env items k) →
     c = text_collection
     ∧ ∃ item, item ∈ items
         ∧ ids e = py_str (Id item)
         ∧ metadatas e = {[ lit "id" := py_str (Id item);
                            lit "name" := Name item;
                            lit "description" := Description item ]}
         ∧ dom (metadatas e) = {[ lit "id"; lit "name"; lit "description" ]}
         ∧ documents e = Some (composite_text item)
         ∧ generate_text_embedding env (composite_text item) = inr (embeddings e))
  ∧ (outcome (text_indexing_loop env items k) = inr tt →
     ∀ item, item ∈ items →
       ∃ v, Add text_collection (text_entry item v)
            ∈ calls (text_indexing_loop env items k))
  ∧ (∀ c, client k !! text_collection = Some c →
       ∃ c', client (final (text_indexing_loop env items k)) !! text_collection
             = Some c'
         ∧ ∀ r, r ∈ records c' →
             r ∈ records c
             ∨ ∃ item, item ∈ items
                 ∧ ids r = py_str (Id item)
                 ∧ metadatas r = {[ lit "id" := py_str (Id item);
                                    lit "name" := Name item;
                                    lit "description" := Description item ]}
                 ∧ documents r = Some (composite_text item)
                 ∧ generate_text_embedding env (composite_text item)
                   = inr (embeddings r)).
Proof.
  split_and!.
  - intros c e (item & Hin & Hev)%text_loop_call_origin.
    apply text_calls_origin in Hev as [[=]|(v & Hv & [= -> ->])].
    split; [done|]. exists item. simpl. split_and!; try done.
  - intros Hout item Hin.
    destruct (text_loop_complete env items k Hout item Hin) as [v Hv].
    exists v. destruct (text_loop_calls env items k) as (n & -> & Hn).
    rewrite (Hn Hout), firstn_all. apply list_elem_of_join.
    exists (text_calls env item). split; [|by apply list_elem_of_fmap_2].
    unfold text_calls. rewrite Hv. right. left.
  - intros c Hc. destruct (text_loop_records env items k c Hc) as (c' & Hfin & Hrec).
    exists c'. split; [done|]. intros r Hr.
    destruct (Hrec r Hr) as [?|(item & v & Hin & Hv & ->)]; [by left|].
    right. by exists item.
Qed.

Lemma text_entry_is_item_record_witness :
  ∃ v, Add text_collection (text_entry Sample.atlas v)
       ∈ calls (text_indexing_loop Sample.env [Sample.atlas] Sample.ready).
Proof.
  apply (proj1 (proj2 (text_entry_is_item_record
                         Sample.env [Sample.atlas] Sample.ready))).
  - vm_compute. reflexivity.
  - left.
Defined.

(** C10.  Every record the pipeline writes repeats its own id in its
    metadata: under the key [id] for a record of the text loop, where both
    are the string form of the item's [Id], and under the key [image_id]
    for a record of the image loop. *)
Theorem entry_id_repeated_in_metadata {F : Type} (env : Env F) items walk k :
  (∀ c e, Add c e ∈ calls (text_indexing_loop env items k) →
     metadatas e !! lit "id" = Some (ids e)
     ∧ ∃ item, item ∈ items ∧ ids e = py_str (Id item))
  ∧ (∀ c e, Add c e ∈ calls (image_indexing_loop env walk k) →
     metadatas e !! lit "image_id" = Some (ids e)).
Proof.
  split.
  - intros c e (item & Hin & Hev)%text_loop_call_origin.
    apply text_calls_origin in Hev as [[=]|(v & Hv & [= -> ->])]. simpl.
    split; [apply lookup_insert_eq|by exists item].
  - intros c e (subdir & dirs & files & file & _ & _ & _ & Hev)%image_loop_call_origin.
    destruct Hev as [[=]|(image_file & _ & [[=]|(v & _ & [= -> ->])])]. simpl.
    rewrite lookup_insert_ne by (vm_compute; discriminate).
    apply lookup_singleton_eq.
Qed.

Lemma entry_id_repeated_in_metadata_witness :
  metadatas (text_entry Sample.atlas [36%Z; 1%Z]) !! lit "id"
  = Some (ids (text_entry Sample.atlas [36%Z; 1%Z]))
  ∧ ∃ item, item ∈ [Sample.atlas]
      ∧ ids (text_entry Sample.atlas [36%Z; 1%Z]) = py_str (Id item).
Proof.
  apply (proj1 (entry_id_repeated_in_metadata
                  Sample.env [Sample.atlas] Sample.walk_one Sample.ready)
           text_collection).
  vm_compute. right. left.
Defined.

(** C1, as the specification states it, fails: when the input of the text
    loop holds two items with the same id, the loop completes and the
    collection holds one record under that id, but it is the record of the
    first item, not of the later one. *)
Lemma duplicate_id_later_item_does_not_win :
  let r := text_indexing_loop Sample.env [Sample.atlas; Sample.atlas_again] Sample.ready in
  outcome r = inr tt
  ∧ (records <$> client (final r) !! text_collection)
    = Some [text_entry Sample.atlas [36%Z; 1%Z]]
  ∧ generate_text_embedding Sample.env (composite_text Sample.atlas_again)
    = inr [55%Z; 1%Z]
  ∧ text_entry Sample.atlas [36%Z; 1%Z] ≠ text_entry Sample.atlas_again [55%Z; 1%Z].
Proof.
  cbv zeta. split_and!; [by vm_compute..|].
  intros H. apply (f_equal embeddings) in H. vm_compute in H. discriminate.
Qed.

(** C1, amended.  [add] under an id the collection already holds is
    ignored: after two insertions with the same id the collection holds
    exactly one record for that id, and it is the record that was there
    before the second insertion (the first write when the id was free).
    So when the input of the text loop contains duplicate ids, the
    earliest item wins, and an id stored before the loop keeps its
    record. *)
Theorem add_keeps_the_stored_record {F : Type} (env : Env F) :
  (∀ (c c1 c2 : Collection F) e1 e2,
     NoDup (ids <$> records c) → ids e2 = ids e1 →
     add c e1 = inr c1 → add c1 e2 = inr c2 →
     c2 = c1
     ∧ count c2 (ids e1) = 1%nat
     ∧ (get c (ids e1) = None → get c2 (ids e1) = Some e1)
     ∧ (∀ old, get c (ids e1) = Some old → get c2 (ids e1) = Some old))
  ∧ (∀ items k c,
       client k !! text_collection = Some c → NoDup (ids <$> records c) →
       outcome (text_indexing_loop env items k) = inr tt →
       ∃ c', client (final (text_indexing_loop env items k)) !! text_collection
             = Some c'
         ∧ ∀ item, item ∈ items →
             count c' (py_str (Id item)) = 1%nat
             ∧ get c' (py_str (Id item))
               = match get c (py_str (Id item)) with
                 | Some old => Some old
                 | None => first_entry env (py_str (Id item)) items
                 end).
Proof.
  split.
  - intros c c1 c2 e1 e2 Hnd Hid H1 H2.
    pose proof (add_again _ _ _ _ _ H1 Hid H2) as ->.
    split; [done|]. split_and!.
    + apply count_NoDup; [by eapply add_NoDup|by eapply add_records_present].
    + intros Hn. rewrite (get_add _ _ _ _ H1), Hn. by rewrite bool_decide_eq_true_2.
    + intros old Ho. by rewrite (get_add _ _ _ _ H1), Ho.
  - intros items k c Hc Hnd Hout.
    destruct (text_loop_store env items k c Hc Hout) as (c' & Hfin & Hnd' & Hget).
    exists c'. split; [rewrite Hfin; apply lookup_insert_eq|].
    intros item Hin. split; [|apply Hget].
    apply count_NoDup; [by apply Hnd'|].
    assert (Hs : is_Some (get c' (py_str (Id item)))).
    { rewrite Hget. destruct (get c (py_str (Id item))); [by eexists|].
      unfold first_entry.
      destruct (find _ items) as [it|] eqn:Ef.
      - apply find_some in Ef as [Hit%list_elem_of_In _].
        destruct (text_loop_complete env items k Hout it Hit) as [v ->].
        by eexists.
      - apply find_none with (x := item) in Ef; [|by apply list_elem_of_In].
        by rewrite bool_decide_eq_true_2 in Ef. }
    destruct Hs as [e He]. apply find_has_id_Some in He as [<- He].
    by apply list_elem_of_fmap_2.
Qed.

Lemma add_keeps_the_stored_record_witness :
  ∃ c', client (final (text_indexing_loop Sample.env
                         [Sample.atlas; Sample.atlas_again] Sample.ready))
          !! text_collection = Some c'
    ∧ ∀ item, item ∈ [Sample.atlas; Sample.atlas_again] →
        count c' (py_str (Id item)) = 1%nat
        ∧ get c' (py_str (Id item))
          = match get (new_collection text_collection cosine) (py_str (Id item)) with
            | Some old => Some old
            | None => first_entry Sample.env (py_str (Id item))
                        [Sample.atlas; Sample.atlas_again]
            end.
Proof.
  apply (proj2 (add_keeps_the_stored_record Sample.env)).
  - vm_compute. reflexivity.
  - simpl. constructor.
  - vm_compute. reflexivity.
Defined.

(** C2, as the specification states it, fails: on a batch of five items
    whose third item makes the generator raise [InputError], the text loop
    raises [InputError]; the collection then holds items 1 and 2 only, and
    items 4 and 5 were never handed to the generator or to the store. *)
Lemma failure_of_item_three_aborts_the_pass :
  let r := text_indexing_loop Sample.env Sample.batch Sample.ready in
  outcome r = inl (GeneratorError InputError)
  ∧ (fmap (M := list) ids <$> (records <$> client (final r) !! text_collection))
    = Some [lit "1"; lit "2"]
  ∧ calls r = mjoin (text_calls Sample.env <$> take 3 Sample.batch).
Proof. cbv zeta. split_and!; by vm_compute. Qed.

(** C2, amended.  A failure of one item's generator call or store call
    raises out of the text loop at that item: the records of the items
    before it stay in the collection, the failing item is not inserted,
    and the items after it are not processed at all (the result does not
    depend on them).  No report is produced. *)
Theorem text_loop_halts_at_first_failure {F : Type} (env : Env F)
    pre item post k k1 t1 err :
  text_indexing_loop env pre k = (inr tt, k1, t1) →
  (generate_text_embedding env (composite_text item) = inl err
   ∨ ∃ v c, generate_text_embedding env (composite_text item) = inr v
            ∧ client k1 !! text_collection = Some c
            ∧ add c (text_entry item v) = inl err) →
  text_indexing_loop env (pre ++ item :: post) k
  = (inl err, k1, t1 ++ text_calls env item).
Proof.
  intros Hpre Hfail. unfold text_indexing_loop in *.
  rewrite for_each_app, Hpre, for_each_cons.
  pose proof (text_body_calls env item k1) as Hc.
  rewrite text_body_run in *. simpl in *.
  destruct Hfail as [Hg|(v & c & Hg & Hk & Ha)]; rewrite Hg in *.
  - by rewrite <- Hc.
  - rewrite Hk, Ha in *. by rewrite <- Hc.
Qed.

Lemma text_loop_halts_at_first_failure_witness :
  text_indexing_loop Sample.env Sample.batch Sample.ready
  = (inl (GeneratorError InputError),
     final (text_indexing_loop Sample.env (take 2 Sample.batch) Sample.ready),
     calls (text_indexing_loop Sample.env (take 2 Sample.batch) Sample.ready)
     ++ text_calls Sample.env
          {| Id := PyInt 3; Name := lit "Three"; Description := [] |}).
Proof.
  apply (text_loop_halts_at_first_failure Sample.env
           (take 2 Sample.batch) _ (drop 3 Sample.batch) Sample.ready).
  - vm_compute. reflexivity.
  - left. vm_compute. reflexivity.
Defined.

(** C4.  The [product_id] stored with an image is the name of the
    directory the file was found in, without its first five code points,
    whatever they are: for a directory named "prod_42" it is "42". *)
Theorem product_id_drops_five_characters {F : Type} (env : Env F) walk k c e :
  Add c e ∈ calls (image_indexing_loop env walk k) →
  ∃ subdir dirs files file,
    (subdir, dirs, files) ∈ walk ∧ file ∈ files
    ∧ ids e = slice_to_minus 4 (basename (os_name env) file)
    ∧ metadatas e !! lit "product_id" = Some (drop 5 (basename (os_name env) subdir))
    ∧ (∀ parent nm, parent ≠ [] → nm ≠ [] →
         existsb (is_sep (os_name env)) nm = false →
         subdir = join (os_name env) parent nm →
         metadatas e !! lit "product_id" = Some (drop 5 nm))
    ∧ (basename (os_name env) subdir = lit "prod_42" →
       metadatas e !! lit "product_id" = Some (lit "42")).
Proof.
  intros (subdir & dirs & files & file & Hw & Hf & _ & Hev)%image_loop_call_origin.
  destruct Hev as [[=]|(image_file & _ & [[=]|(v & _ & [= -> ->])])].
  exists subdir, dirs, files, file. simpl. rewrite lookup_insert_eq.
  split_and!; [done..| |by intros ->].
  intros parent nm Hp Hn Hs ->. by rewrite basename_join.
Qed.

Lemma product_id_drops_five_characters_witness :
  ∃ subdir dirs files file,
    (subdir, dirs, files) ∈ Sample.walk_one ∧ file ∈ files
    ∧ lit "a" = slice_to_minus 4 (basename Windows file)
    ∧ Some (lit "42") = Some (drop 5 (basename Windows subdir))
    ∧ (∀ parent nm, parent ≠ [] → nm ≠ [] →
         existsb (is_sep Windows) nm = false →
         subdir = join Windows parent nm →
         Some (lit "42") = Some (drop 5 nm))
    ∧ (basename Windows subdir = lit "prod_42" → Some (lit "42") = Some (lit "42")).
Proof.
  apply (product_id_drops_five_characters Sample.env Sample.walk_one Sample.ready
           image_collection
           (image_entry Sample.env Sample.prod_42 (lit "a.jpg") [4%Z; 2%Z; 3%Z])).
  vm_compute. right. right. left.
Defined.

(** C5 does not hold for a file named "photo.jpeg": the file passes the
    extension test, and the id under which it is stored, which is also its
    [image_id], is "photo." with the dot, not "photo". *)
Theorem jpeg_image_id_keeps_the_dot {F : Type} (env : Env F) subdir v :
  is_image env (lit "photo.jpeg") = true
  ∧ ids (image_entry env subdir (lit "photo.jpeg") v) = lit "photo."
  ∧ metadatas (image_entry env subdir (lit "photo.jpeg") v) !! lit "image_id"
    = Some (lit "photo.")
  ∧ (fmap (M := list) ids
       <$> (records
              <$> client (final (image_indexing_loop Sample.env Sample.walk_jpeg
                                   Sample.ready))
                  !! image_collection))
    = Some [lit "photo."].
Proof.
  assert (Hid : ∀ pf, slice_to_minus 4 (basename pf (lit "photo.jpeg")) = lit "photo.")
    by (by intros []; vm_compute).
  split_and!.
  - by vm_compute.
  - apply Hid.
  - simpl. rewrite lookup_insert_ne by (vm_compute; discriminate).
    rewrite lookup_singleton_eq. f_equal. apply Hid.
  - by vm_compute.
Qed.

(** C6 does not hold on a directory with the files "a.jpg", "notes.txt"
    and "b.png": both images pass the extension test and the text file is
    skipped, but after "a.jpg" is stored the name [image_embedding] is
    bound to its vector, so on "b.png" the loop reads the file and then
    raises [AttributeError]; "b.png" is never stored. *)
Theorem second_image_file_raises_attribute_error :
  let r := image_indexing_loop Sample.env Sample.walk_two Sample.ready in
  (is_image Sample.env <$> [lit "a.jpg"; lit "notes.txt"; lit "b.png"])
  = [true; false; true]
  ∧ outcome r = inl AttributeError
  ∧ (fmap (M := list) ids <$> (records <$> client (final r) !! image_collection))
    = Some [lit "a"]
  ∧ calls r
    = [ OpenRead (Sample.prod_42 ++ backslash :: lit "a.jpg");
        GenerateImage (lit "TWFu");
        Add image_collection
          (image_entry Sample.env Sample.prod_42 (lit "a.jpg") [4%Z; 2%Z; 3%Z]);
        OpenRead (Sample.prod_42 ++ backslash :: lit "b.png") ].
Proof. cbv zeta. split_and!; by vm_compute. Qed.

(** C9.  What the image loop hands to the image generator is a string:
    the base64 encoding of the bytes of an image file of the walk, decoded
    as UTF-8, that is one ASCII code point for each octet of the
    encoding. *)
Theorem image_generator_input_is_base64_text {F : Type} (env : Env F) walk k arg :
  GenerateImage arg ∈ calls (image_indexing_loop env walk k) →
  ∃ subdir dirs files file image_file,
    (subdir, dirs, files) ∈ walk ∧ file ∈ files ∧ is_image env file = true
    ∧ open_rb env (join (os_name env) subdir file) = Some image_file
    ∧ utf8_decode (b64encode image_file) = Some arg
    ∧ arg = Byte.to_N <$> b64encode image_file.
Proof.
  intros (subdir & dirs & files & file & Hw & Hf & Himg & Hev)%image_loop_call_origin.
  destruct Hev as [[=]|(image_file & Ho & [[= ->]|(v & _ & [=])])].
  exists subdir, dirs, files, file, image_file.
  split_and!; try done. apply decode_b64encode.
Qed.

Lemma image_generator_input_is_base64_text_witness :
  ∃ subdir dirs files file image_file,
    (subdir, dirs, files) ∈ Sample.walk_one ∧ file ∈ files
    ∧ is_image Sample.env file = true
    ∧ open_rb Sample.env (join Windows subdir file) = Some image_file
    ∧ utf8_decode (b64encode image_file) = Some (lit "TWFu")
    ∧ lit "TWFu" = Byte.to_N <$> b64encode image_file.
Proof.
  apply (image_generator_input_is_base64_text Sample.env Sample.walk_one Sample.ready).
  vm_compute. right. left.
Defined.

(** C7, as the specification states it, fails: on an empty store the
    cell creates no collection named "text" or "image"; the two
    collections it creates are named "text_chroma_db" and
    "image_chroma_db". *)
Lemma collections_are_not_named_text_and_image :
  let db := client (final (create_collections (start (F := Z) ∅))) in
  db !! lit "text" = None ∧ db !! lit "image" = None
  ∧ dom db = {[ lit "text_chroma_db"; lit "image_chroma_db" ]}.
Proof. cbv zeta. split_and!; by vm_compute. Qed.

(** C7, amended.  The cell asks the store for two collections, named
    "text_chroma_db" and "image_chroma_db".  Each is created only if the
    store has none of that name, and then with the metadata
    [hnsw:space = cosine]; a collection the store already has is returned
    as it is, and no collection is removed.  On an empty store exactly
    these two collections exist afterwards.  Asking again, with the same
    or another metadata, returns the same collection and leaves the store
    unchanged. *)
Theorem create_collections_get_or_create {F : Type} (k : Kernel F) :
  let k' := final (create_collections k) in
  create_collections k = (inr tt, k', [])
  ∧ dom (client k')
    = dom (client k) ∪ {[ lit "text_chroma_db"; lit "image_chroma_db" ]}
  ∧ (client k = ∅ → size (client k') = 2%nat)
  ∧ (∀ n, n = lit "text_chroma_db" ∨ n = lit "image_chroma_db" →
       client k !! n = None →
       client k' !! n = Some (new_collection n {[ lit "hnsw:space" := lit "cosine" ]}))
  ∧ (∀ n c, client k !! n = Some c → client k' !! n = Some c)
  ∧ create_collections k' = (inr tt, k', [])
  ∧ (∀ (db : gmap str (Collection F)) n md md',
       get_or_create_collection (get_or_create_collection db n md).1 n md'
       = get_or_create_collection db n md).
Proof.
  assert (Hne : lit "image_chroma_db" ≠ lit "text_chroma_db")
    by (vm_compute; discriminate).
  assert (Hlk : ∀ m, client (final (create_collections k)) !! m
                     = if bool_decide (lit "image_chroma_db" = m)
                       then Some (default (new_collection (lit "image_chroma_db") cosine)
                                    (client k !! lit "image_chroma_db"))
                       else if bool_decide (lit "text_chroma_db" = m)
                       then Some (default (new_collection (lit "text_chroma_db") cosine)
                                    (client k !! lit "text_chroma_db"))
                       else client k !! m).
  { intros m. unfold create_collections, final. simpl.
    rewrite !get_or_create_lookup.
    case_bool_decide as E1; [|done]. rewrite bool_decide_eq_false_2; [done|].
    by intros E2. }
  cbv zeta. split_and!.
  - done.
  - apply set_eq. intros m. rewrite elem_of_union, !elem_of_dom, Hlk.
    rewrite elem_of_union, !elem_of_singleton.
    repeat case_bool_decide; subst; split; intros Hyp; eauto.
    all: try (destruct Hyp as [Hyp|[Hyp|Hyp]]; eauto; congruence).
  - intros Hk. unfold create_collections, final, get_or_create_collection. simpl.
    rewrite Hk, lookup_empty. simpl. rewrite lookup_insert_ne by done.
    rewrite lookup_empty. simpl.
    rewrite map_size_insert_None by (by rewrite lookup_insert_ne, lookup_empty).
    by rewrite map_size_insert_None, map_size_empty by apply lookup_empty.
  - intros n [->| ->] Hn; rewrite Hlk.
    + rewrite bool_decide_eq_false_2 by done.
      rewrite bool_decide_eq_true_2 by done. by rewrite Hn.
    + rewrite bool_decide_eq_true_2 by done. by rewrite Hn.
  - intros n c Hn. rewrite Hlk. repeat case_bool_decide; subst; by rewrite ?Hn.
  - remember (final (create_collections k)) as k' eqn:Ek.
    unfold create_collections, get_or_create_collection.
    rewrite (Hlk (lit "text_chroma_db")).
    rewrite bool_decide_eq_false_2 by done.
    rewrite bool_decide_eq_true_2 by done. cbn [fst].
    rewrite (Hlk (lit "image_chroma_db")).
    rewrite bool_decide_eq_true_2 by done. cbn [fst].
    by destruct k'.
  - intros db n md md'. apply get_or_create_twice.
Qed.

Lemma create_collections_get_or_create_witness :
  size (client (final (create_collections (start (F := Z) ∅)))) = 2%nat.
Proof.
  apply (proj1 (proj2 (proj2 (create_collections_get_or_create (start (F := Z) ∅))))).
  reflexivity.
Defined.

(** * Further properties of the notebook's code *)

(** ** [image_to_base64] and the encoder *)

Section EncoderFacts.

Lemma to_N_inj (a b : byte) : Byte.to_N a = Byte.to_N b → a = b.
Proof.
  intros H. pose proof (Byte.of_to_N a) as Ha. rewrite H, Byte.of_to_N in Ha.
  by injection Ha.
Qed.

Lemma sextets_recompose (n : N) :
  n = (n / 262144) * 262144 + ((n / 4096) mod 64) * 4096
      + ((n / 64) mod 64) * 64 + n mod 64.
Proof.
  pose proof (N.div_mod' n 64) as H1.
  pose proof (N.div_mod' (n / 64) 64) as H2.
  pose proof (N.div_mod' (n / 4096) 64) as H3.
  rewrite N.Div0.div_div in H2. rewrite N.Div0.div_div in H3.
  change (64 * 64) with 4096 in H2. change (4096 * 64) with 262144 in H3.
  lia.
Qed.

Lemma lor_shiftl_small y k x : x < 2 ^ k → N.lor (N.shiftl y k) x = y * 2 ^ k + x.
Proof.
  intros Hx.
  assert (H0 : N.land (N.shiftl y k) x = 0).
  { apply N.bits_inj. intros i. rewrite N.land_spec, N.bits_0.
    destruct (N.ltb_spec i k) as [Hi|Hi].
    - by rewrite N.shiftl_spec_low.
    - rewrite <- (N.mod_small x (2 ^ k)) by done.
      rewrite N.mod_pow2_bits_high by done. apply andb_false_r. }
  rewrite <- N.lxor_lor, <- N.add_nocarry_lxor by done.
  by rewrite N.shiftl_mul_pow2.
Qed.

Lemma b64_char_inj x y : x < 64 → y < 64 → b64_char x = b64_char y → x = y.
Proof.
  assert (H : forallb (λ i, forallb (λ j,
                implb (Byte.eqb (b64_char (N.of_nat i)) (b64_char (N.of_nat j)))
                      (Nat.eqb i j)) (seq 0 64)) (seq 0 64) = true)
    by (vm_compute; reflexivity).
  intros Hx Hy E.
  rewrite forallb_forall in H.
  specialize (H (N.to_nat x)). rewrite forallb_forall in H.
  specialize (H ltac:(apply in_seq; lia) (N.to_nat y) ltac:(apply in_seq; lia)).
  rewrite !N2Nat.id, E in H.
  rewrite (Byte.byte_dec_lb eq_refl) in H. simpl in H.
  apply Nat.eqb_eq in H. lia.
Qed.

Lemma b64_char_not_pad x : x < 64 → b64_char x ≠ b64_pad.
Proof.
  assert (H : forallb (λ i, negb (Byte.eqb (b64_char (N.of_nat i)) b64_pad))
                (seq 0 64) = true) by (vm_compute; reflexivity).
  intros Hx E. rewrite forallb_forall in H.
  specialize (H (N.to_nat x) ltac:(apply in_seq; lia)).
  rewrite N2Nat.id, E in H. by rewrite (Byte.byte_dec_lb eq_refl) in H.
Qed.

Lemma group_value (a b c : byte) :
  N.lor (N.lor (N.shiftl (Byte.to_N a) 16) (N.shiftl (Byte.to_N b) 8)) (Byte.to_N c)
  = group (Byte.to_N a) (Byte.to_N b) (Byte.to_N c).
Proof.
  pose proof (Byte.to_N_bounded b). pose proof (Byte.to_N_bounded c).
  unfold group.
  rewrite (lor_shiftl_small _ 16)
    by (rewrite N.shiftl_mul_pow2; change (2 ^ 8) with 256;
        change (2 ^ 16) with 65536; lia).
  rewrite !N.shiftl_mul_pow2.
  replace (Byte.to_N a * 2 ^ 16 + Byte.to_N b * 2 ^ 8)
    with (N.shiftl (Byte.to_N a * 256 + Byte.to_N b) 8)
    by (rewrite N.shiftl_mul_pow2; change (2 ^ 8) with 256;
        change (2 ^ 16) with 65536; lia).
  rewrite lor_shiftl_small by (change (2 ^ 8) with 256; lia).
  change (2 ^ 8) with 256. lia.
Qed.

Lemma sextet_div n k : N.land (N.shiftr n k) 63 = (n / 2 ^ k) mod 64.
Proof. rewrite N.shiftr_div_pow2. change 63 with (N.ones 6). by rewrite N.land_ones. Qed.

(** The encoder, one group at a time, in terms of quotients and
    remainders. *)
Lemma b64encode_3 a b c rest :
  b64encode (a :: b :: c :: rest)
  = let n := group (Byte.to_N a) (Byte.to_N b) (Byte.to_N c) in
    b64_char (n / 262144) :: b64_char ((n / 4096) mod 64)
      :: b64_char ((n / 64) mod 64) :: b64_char (n mod 64) :: b64encode rest.
Proof.
  cbn [b64encode]. rewrite group_value, !sextet_div, N.shiftr_div_pow2.
  change 63 with (N.ones 6). by rewrite N.land_ones.
Qed.

Lemma b64encode_2 a b :
  b64encode [a; b]
  = let n := group (Byte.to_N a) (Byte.to_N b) 0 in
    [b64_char (n / 262144); b64_char ((n / 4096) mod 64);
     b64_char ((n / 64) mod 64); b64_pad].
Proof.
  pose proof (group_value a b x00) as H.
  change (Byte.to_N x00) with 0 in H. rewrite N.lor_0_r in H.
  cbn [b64encode]. by rewrite H, !sextet_div, N.shiftr_div_pow2.
Qed.

Lemma b64encode_1 a :
  b64encode [a]
  = let n := group (Byte.to_N a) 0 0 in
    [b64_char (n / 262144); b64_char ((n / 4096) mod 64); b64_pad; b64_pad].
Proof.
  cbn [b64encode]. rewrite !sextet_div, N.shiftr_div_pow2, N.shiftl_mul_pow2.
  unfold group. change (2 ^ 16) with 65536. by rewrite N.mul_0_l, !N.add_0_r.
Qed.

Lemma group_top_sextet a b c :
  a ≤ 255 → b ≤ 255 → c ≤ 255 → group a b c / 262144 < 64.
Proof. intros. apply N.Div0.div_lt_upper_bound. unfold group. lia. Qed.

Lemma group_inj a b c a' b' c' :
  a ≤ 255 → b ≤ 255 → c ≤ 255 → a' ≤ 255 → b' ≤ 255 → c' ≤ 255 →
  group a b c / 262144 = group a' b' c' / 262144 →
  (group a b c / 4096) mod 64 = (group a' b' c' / 4096) mod 64 →
  (group a b c / 64) mod 64 = (group a' b' c' / 64) mod 64 →
  group a b c mod 64 = group a' b' c' mod 64 →
  a = a' ∧ b = b' ∧ c = c'.
Proof.
  intros ? ? ? ? ? ? H1 H2 H3 H4.
  assert (group a b c = group a' b' c') as E.
  { rewrite (sextets_recompose (group a b c)), (sextets_recompose (group a' b' c')).
    by rewrite H1, H2, H3, H4. }
  unfold group in E. lia.
Qed.

Lemma group_low_2 a b : group a b 0 mod 64 = 0.
Proof.
  unfold group. replace (a * 65536 + b * 256 + 0) with ((a * 1024 + b * 4) * 64) by lia.
  apply N.Div0.mod_mul.
Qed.

Lemma group_low_1 a : (group a 0 0 / 64) mod 64 = 0.
Proof.
  unfold group. replace (a * 65536 + 0 * 256 + 0) with ((a * 1024) * 64) by lia.
  rewrite N.div_mul by done. replace (a * 1024) with ((a * 16) * 64) by lia.
  apply N.Div0.mod_mul.
Qed.

Lemma cons_inv {A} (x y : A) l k : x :: l = y :: k → x = y ∧ l = k.
Proof. by intros [= -> ->]. Qed.

(** Two byte sequences with the same encoding are equal. *)
Lemma b64encode_inj (bs1 bs2 : bytes) : b64encode bs1 = b64encode bs2 → bs1 = bs2.
Proof.
  assert (Hb : ∀ x : byte, Byte.to_N x ≤ 255) by apply Byte.to_N_bounded.
  assert (Hm : ∀ x, x mod 64 < 64) by (intros; by apply N.mod_lt).
  assert (Hq : ∀ a b c, a ≤ 255 → b ≤ 255 → c ≤ 255 → group a b c / 262144 < 64)
    by apply group_top_sextet.
  assert (H : ∀ n (l1 l2 : bytes), (length l1 < n)%nat →
              b64encode l1 = b64encode l2 → l1 = l2).
  { induction n as [|n IH]; intros l1 l2 Hl E; [lia|].
    destruct l1 as [|a1 [|b1 [|c1 r1]]], l2 as [|a2 [|b2 [|c2 r2]]];
      rewrite ?b64encode_1, ?b64encode_2, ?b64encode_3 in E; cbv zeta in E;
      try done; try discriminate E.
    all: apply cons_inv in E as [E1 E]; apply cons_inv in E as [E2 E];
      apply cons_inv in E as [E3 E]; apply cons_inv in E as [E4 E].
    all: try (by (apply b64_char_not_pad in E3
                  || (symmetry in E3; apply b64_char_not_pad in E3)); [|apply Hm]).
    all: try (by (apply b64_char_not_pad in E4
                  || (symmetry in E4; apply b64_char_not_pad in E4)); [|apply Hm]).
    - apply b64_char_inj in E1, E2; [|by auto using N.le_0_l..].
      destruct (group_inj (Byte.to_N a1) 0 0 (Byte.to_N a2) 0 0) as (Ha & _ & _);
        [by auto using N.le_0_l..|done|done|by rewrite !group_low_1
        |by rewrite !group_low_2|].
      by apply to_N_inj in Ha as ->.
    - apply b64_char_inj in E1, E2, E3; [|by auto using N.le_0_l..].
      destruct (group_inj (Byte.to_N a1) (Byte.to_N b1) 0 (Byte.to_N a2) (Byte.to_N b2) 0)
        as (Ha & Hb' & _);
        [by auto using N.le_0_l..|done|done|done|by rewrite !group_low_2|].
      by apply to_N_inj in Ha as ->; apply to_N_inj in Hb' as ->.
    - apply b64_char_inj in E1, E2, E3, E4; [|by auto using N.le_0_l..].
      destruct (group_inj (Byte.to_N a1) (Byte.to_N b1) (Byte.to_N c1)
                  (Byte.to_N a2) (Byte.to_N b2) (Byte.to_N c2))
        as (Ha & Hb' & Hc); [by auto..|].
      apply to_N_inj in Ha as ->; apply to_N_inj in Hb' as ->;
        apply to_N_inj in Hc as ->.
      do 3 f_equal. apply IH; [simpl in Hl; lia|done]. }
  by apply (H (S (length bs1))); lia.
Qed.

Lemma b64_char_in_alphabet x :
  Byte.to_N (b64_char x) ∈ lit b64_alphabet ++ lit "=".
Proof.
  unfold b64_char. destruct (String.get _ _) as [a|] eqn:E.
  - apply get_in_list in E.
    assert (H : forallb (λ a, bool_decide (Byte.to_N (byte_of_ascii a)
                                          ∈ lit b64_alphabet ++ lit "="))
                  (list_ascii_of_string b64_alphabet) = true)
      by (vm_compute; reflexivity).
    rewrite forallb_forall in H. apply list_elem_of_In, H in E.
    by apply bool_decide_eq_true in E.
  - apply elem_of_app. right. vm_compute. left.
Qed.

Lemma b64encode_alphabet (bs : bytes) :
  Forall (λ b, Byte.to_N b ∈ lit b64_alphabet ++ lit "=") (b64encode bs).
Proof.
  assert (Hp : Byte.to_N b64_pad ∈ lit b64_alphabet ++ lit "=").
  { apply elem_of_app. right. vm_compute. left. }
  assert (H : ∀ n (l : bytes), (length l < n)%nat →
              Forall (λ b, Byte.to_N b ∈ lit b64_alphabet ++ lit "=") (b64encode l)).
  { induction n as [|n IH]; intros l Hl; [lia|].
    destruct l as [|a [|b [|c rest]]]; cbn [b64encode].
    - constructor.
    - repeat apply Forall_cons_2; by auto using b64_char_in_alphabet.
    - repeat apply Forall_cons_2; by auto using b64_char_in_alphabet.
    - repeat (apply Forall_cons_2; [apply b64_char_in_alphabet|]).
      apply IH. simpl in Hl. lia. }
  by apply (H (S (length bs))); lia.
Qed.

End EncoderFacts.

Section ImageToBase64.
Context {F : Type} (env : Env F).

Lemma image_to_base64_run path (k : Kernel F) :
  image_to_base64 env path k
  = match open_rb env path with
    | None => (inl OSError, k, [OpenRead path])
    | Some image_file =>
        (inr (Byte.to_N <$> b64encode image_file), k, [OpenRead path])
    end.
Proof.
  unfold image_to_base64, bind, emit, lift. simpl.
  destruct (open_rb env path) as [bs|]; simpl; [|done].
  by rewrite decode_b64encode.
Qed.

End ImageToBase64.

(** X1.  [image_to_base64] opens the file once and leaves the kernel as it
    is.  It raises [OSError] when the file cannot be read and never raises
    [UnicodeDecodeError]: for a file of [n] bytes it returns a string of
    [4 * ceil(n / 3)] characters, all of them letters, digits, [+], [/] or
    [=]. *)
Theorem image_to_base64_contract {F : Type} (env : Env F) path (k : Kernel F) :
  (open_rb env path = None →
   image_to_base64 env path k = (inl OSError, k, [OpenRead path]))
  ∧ (∀ image_file, open_rb env path = Some image_file →
       ∃ s, image_to_base64 env path k = (inr s, k, [OpenRead path])
         ∧ utf8_decode (b64encode image_file) = Some s
         ∧ length s = (4 * ((length image_file + 2) / 3))%nat
         ∧ Forall (λ ch, ch ∈ lit b64_alphabet ++ lit "=") s).
Proof.
  split.
  - intros Ho. by rewrite image_to_base64_run, Ho.
  - intros bs Ho. exists (Byte.to_N <$> b64encode bs).
    rewrite image_to_base64_run, Ho. split_and!.
    + done.
    + apply decode_b64encode.
    + by rewrite length_fmap, b64encode_length.
    + apply Forall_fmap. apply b64encode_alphabet.
Qed.

Lemma image_to_base64_contract_witness :
  ∃ s, image_to_base64 Sample.env (Sample.prod_42 ++ backslash :: lit "a.jpg")
         Sample.ready
       = (inr s, Sample.ready,
          [OpenRead (Sample.prod_42 ++ backslash :: lit "a.jpg")])
    ∧ utf8_decode (b64encode ["M"; "a"; "n"]%byte) = Some s
    ∧ length s = (4 * ((length ["M"; "a"; "n"]%byte + 2) / 3))%nat
    ∧ Forall (λ ch, ch ∈ lit b64_alphabet ++ lit "=") s.
Proof.
  apply (proj2 (image_to_base64_contract Sample.env
                  (Sample.prod_42 ++ backslash :: lit "a.jpg") Sample.ready)).
  vm_compute. reflexivity.
Defined.

(** X2.  [image_to_base64] loses nothing: two files for which it returns
    the same string have the same bytes. *)
Theorem image_to_base64_lossless {F : Type} (env : Env F)
    path1 path2 (k1 k2 : Kernel F) s :
  outcome (image_to_base64 env path1 k1) = inr s →
  outcome (image_to_base64 env path2 k2) = inr s →
  open_rb env path1 = open_rb env path2.
Proof.
  rewrite !image_to_base64_run.
  destruct (open_rb env path1) as [bs1|], (open_rb env path2) as [bs2|];
    unfold outcome; cbn [fst]; try done.
  intros [= <-] [= E]. f_equal. symmetry. apply b64encode_inj.
  assert (Inj (=) (=) Byte.to_N) by (intros ??; apply to_N_inj).
  by apply (inj (fmap Byte.to_N)) in E.
Qed.

Lemma image_to_base64_lossless_witness :
  open_rb Sample.env (Sample.prod_42 ++ backslash :: lit "a.jpg")
  = open_rb Sample.env (join Windows Sample.prod_42 (lit "a.jpg")).
Proof.
  apply (image_to_base64_lossless Sample.env _ _ Sample.ready
           (start ∅) (lit "TWFu")); vm_compute; reflexivity.
Defined.

(** ** Names, ids and texts *)

Section NameFacts.
Context {F : Type} (env : Env F).

Lemma is_image_ascii file :
  forallb is_ascii file = true →
  is_image env file = true
  ↔ ∃ stem ext, file = stem ++ ext ∧ ascii_lower <$> ext ∈ image_extensions.
Proof.
  intros Ha. unfold is_image, lower. rewrite Ha, endswith_any_spec. split.
  - intros (suffix & Hin & pre & E).
    apply fmap_app_inv in E as (stem & ext & -> & -> & ->). by exists stem, ext.
  - intros (stem & ext & -> & Hin). exists (ascii_lower <$> ext).
    split; [done|]. exists (ascii_lower <$> stem). apply fmap_app.
Qed.

Lemma basename_sep_free pf p : existsb (is_sep pf) (basename pf p) = false.
Proof.
  induction p as [|c r IH]; [done|]. cbn [basename].
  destruct (is_sep pf c || existsb (is_sep pf) r) eqn:E; [done|]. exact E.
Qed.

Lemma existsb_take {A} (f : A → bool) n (l : list A) :
  existsb f l = false → existsb f (take n l) = false.
Proof.
  intros H. rewrite <- (take_drop n l), existsb_app in H.
  by apply orb_false_elim in H as [? _].
Qed.

Lemma existsb_drop {A} (f : A → bool) n (l : list A) :
  existsb f l = false → existsb f (drop n l) = false.
Proof.
  intros H. rewrite <- (take_drop n l), existsb_app in H.
  by apply orb_false_elim in H as [_ ?].
Qed.

Lemma ascii_lower_dot c : ascii_lower c = 46 → c = 46.
Proof.
  unfold ascii_lower. destruct (N.leb_spec 65 c), (N.leb_spec c 90); simpl; lia.
Qed.

Lemma split_at_newline (n1 n2 r1 r2 : str) :
  newline ∉ n1 → newline ∉ n2 →
  n1 ++ newline :: r1 = n2 ++ newline :: r2 → n1 = n2 ∧ r1 = r2.
Proof.
  revert n2. induction n1 as [|c n1 IH]; intros [|c' n2] H1 H2 E; simpl in E.
  - by injection E.
  - injection E as <- _. apply not_elem_of_cons in H2. tauto.
  - injection E as -> _. apply not_elem_of_cons in H1. tauto.
  - injection E as -> E. apply not_elem_of_cons in H1 as [_ H1].
    apply not_elem_of_cons in H2 as [_ H2].
    destruct (IH n2 H1 H2 E) as [-> ->]. done.
Qed.

Lemma lit_ascii s : ascii_string s → lit s = Byte.to_N <$> list_byte_of_string s.
Proof. intros H. unfold lit. by rewrite utf8_decode_ascii. Qed.

Lemma lit_ascii_inj s1 s2 : ascii_string s1 → ascii_string s2 → lit s1 = lit s2 → s1 = s2.
Proof.
  intros H1 H2. rewrite !lit_ascii by done. intros E.
  assert (Inj (=) (=) Byte.to_N) by (intros ??; apply to_N_inj).
  apply (inj (fmap Byte.to_N)) in E.
  by rewrite <- (string_of_list_byte_of_string s1), E, string_of_list_byte_of_string.
Qed.

Lemma string_of_uint_ascii d : ascii_string (NilEmpty.string_of_uint d).
Proof.
  unfold ascii_string, list_byte_of_string.
  induction d; simpl; constructor; done.
Qed.

Lemma string_of_int_ascii d : ascii_string (NilZero.string_of_int d).
Proof.
  assert (H : ∀ u, ascii_string (NilZero.string_of_uint u)).
  { intros [| | | | | | | | | |]; try apply string_of_uint_ascii.
    by repeat constructor. }
  destruct d as [u|u]; simpl; [apply H|].
  unfold ascii_string, list_byte_of_string. simpl. constructor; [done|apply H].
Qed.

Lemma to_int_not_nil z :
  Z.to_int z ≠ Decimal.Pos Decimal.Nil ∧ Z.to_int z ≠ Decimal.Neg Decimal.Nil.
Proof.
  split; intros E;
    pose proof (DecimalZ.of_to z) as H; rewrite E in H; simpl in H; subst z;
    discriminate E.
Qed.

End NameFacts.

(** X3.  On a file name of ASCII characters the extension test is
    case-insensitive and looks at the end of the name only: the name
    passes exactly when it ends with [.jpg], [.jpeg], [.png], [.bmp] or
    [.gif] in any mix of upper and lower case. *)
Theorem is_image_ascii_extension {F : Type} (env : Env F) file :
  forallb is_ascii file = true →
  is_image env file = true
  ↔ ∃ stem ext, file = stem ++ ext ∧ ascii_lower <$> ext ∈ image_extensions.
Proof. apply is_image_ascii. Qed.

Lemma is_image_ascii_extension_witness :
  is_image Sample.env (lit "COVER.Jpg") = true
  ↔ ∃ stem ext, lit "COVER.Jpg" = stem ++ ext
      ∧ ascii_lower <$> ext ∈ image_extensions.
Proof.
  apply (is_image_ascii_extension Sample.env (lit "COVER.Jpg")).
  vm_compute. reflexivity.
Defined.

(** X4.  The id, the [image_id] and the [product_id] of a record of the
    image loop never contain a path separator of the platform. *)
Theorem image_ids_have_no_separator {F : Type} (env : Env F) walk k c e :
  Add c e ∈ calls (image_indexing_loop env walk k) →
  existsb (is_sep (os_name env)) (ids e) = false
  ∧ ∀ key value, metadatas e !! key = Some value →
      existsb (is_sep (os_name env)) value = false.
Proof.
  intros (subdir & dirs & files & file & _ & _ & _ & Hev)%image_loop_call_origin.
  destruct Hev as [[=]|(image_file & _ & [[=]|(v & _ & [= -> ->])])].
  assert (Hid : existsb (is_sep (os_name env))
                  (slice_to_minus 4 (basename (os_name env) file)) = false)
    by apply existsb_take, basename_sep_free.
  split; [exact Hid|]. intros key value. cbn [metadatas image_entry].
  rewrite lookup_insert. case_decide as E1.
  - intros [= <-].
    exact (existsb_drop _ 5 _ (basename_sep_free (os_name env) subdir)).
  - rewrite lookup_singleton. case_decide as E2; [|done]. by intros [= <-].
Qed.

Lemma image_ids_have_no_separator_witness :
  existsb (is_sep Windows) (lit "a") = false
  ∧ ∀ key value,
      metadatas (image_entry Sample.env Sample.prod_42 (lit "a.jpg") [4%Z; 2%Z; 3%Z])
        !! key = Some value →
      existsb (is_sep Windows) value = false.
Proof.
  apply (image_ids_have_no_separator Sample.env Sample.walk_one Sample.ready
           image_collection
           (image_entry Sample.env Sample.prod_42 (lit "a.jpg") [4%Z; 2%Z; 3%Z])).
  vm_compute. right. right. left.
Defined.

(** X5.  For every ASCII file name without separator whose lower-cased
    form ends with [.jpeg], the file passes the extension test and the id
    under which it is stored is the stem followed by a dot.  When the
    lower-cased name ends with [.jpg], [.png], [.bmp] or [.gif], the id is
    the stem. *)
Theorem image_id_of_extension {F : Type} (env : Env F) subdir file v :
  forallb is_ascii file = true →
  existsb (is_sep (os_name env)) file = false →
  (lit ".jpeg" `suffix_of` (ascii_lower <$> file) →
   is_image env file = true
   ∧ ∃ stem ext, file = stem ++ ext ∧ length ext = 5%nat
       ∧ ids (image_entry env subdir file v) = stem ++ lit ".")
  ∧ (∀ e4, e4 ∈ [lit ".jpg"; lit ".png"; lit ".bmp"; lit ".gif"] →
       e4 `suffix_of` (ascii_lower <$> file) →
       is_image env file = true
       ∧ ∃ stem ext, file = stem ++ ext ∧ ascii_lower <$> ext = e4
           ∧ ids (image_entry env subdir file v) = stem).
Proof.
  intros Ha Hs. split.
  - intros [pre E]. apply fmap_app_inv in E as (stem & ext & -> & Hext & ->).
    split.
    { apply is_image_ascii; [done|]. exists stem, ext. split; [done|].
      rewrite <- Hext. vm_compute. right. left. }
    exists stem, ext.
    assert (Hl : length ext = 5%nat)
      by (by rewrite <- (length_fmap ascii_lower), <- Hext).
    split_and!; [done..|].
    cbn [ids image_entry]. rewrite basename_no_sep by done.
    unfold slice_to_minus. rewrite length_app, Hl.
    replace (length stem + 5 - 4)%nat with (length stem + 1)%nat by lia.
    rewrite take_app_add'. 2: done.
    destruct ext as [|c1 ext]; [done|]. f_equal. cbn [take].
    injection Hext as Hc _. symmetry in Hc. apply ascii_lower_dot in Hc.
    by rewrite Hc.
  - intros e4 He4 [pre E].
    apply fmap_app_inv in E as (stem & ext & -> & Hext & ->).
    split.
    { apply is_image_ascii; [done|]. exists stem, ext. split; [done|].
      rewrite <- Hext. unfold image_extensions.
      apply elem_of_cons in He4 as [->|He4]; [left|]. by do 2 right. }
    exists stem, ext. split_and!; [done..|].
    cbn [ids image_entry]. rewrite basename_no_sep by done.
    apply slice_to_minus_app. rewrite <- (length_fmap ascii_lower), <- Hext.
    repeat (apply elem_of_cons in He4 as [->|He4]; [done|]).
    by apply elem_of_nil in He4.
Qed.

Lemma image_id_of_extension_witness :
  is_image Sample.env (lit "Photo.JPEG") = true
  ∧ ∃ stem ext, lit "Photo.JPEG" = stem ++ ext ∧ length ext = 5%nat
      ∧ ids (image_entry Sample.env Sample.prod_42 (lit "Photo.JPEG") [1%Z])
        = stem ++ lit ".".
Proof.
  apply (proj1 (image_id_of_extension Sample.env Sample.prod_42 (lit "Photo.JPEG")
                  [1%Z] eq_refl eq_refl)).
  exists (lit "photo"). vm_compute. reflexivity.
Defined.

(** X6.  Items with different integer [Id]s get different store ids:
    [str] is injective on integers. *)
Theorem integer_ids_do_not_collide (z1 z2 : Z) :
  py_str (PyInt z1) = py_str (PyInt z2) → z1 = z2.
Proof.
  cbn [py_str]. unfold str_of_int.
  intros E%lit_ascii_inj; [|apply string_of_int_ascii..].
  destruct (to_int_not_nil z1), (to_int_not_nil z2).
  assert (Some (Z.to_int z1) = Some (Z.to_int z2)) as [= E'].
  { rewrite <- !NilZero.isi by done. by rewrite E. }
  by rewrite <- (DecimalZ.of_to z1), E', DecimalZ.of_to.
Qed.

Lemma integer_ids_do_not_collide_witness : (6 + 1)%Z = 7%Z.
Proof. apply (integer_ids_do_not_collide (6 + 1) 7). vm_compute. reflexivity. Defined.

(** X7.  When the names contain no line feed, the composite text
    determines the name and the description: two items with the same
    composite text have the same name and the same description.  Without
    that condition two different items can share a composite text. *)
Theorem composite_text_determines_fields (i1 i2 : Item) :
  (newline ∉ Name i1 → newline ∉ Name i2 →
   composite_text i1 = composite_text i2 →
   Name i1 = Name i2 ∧ Description i1 = Description i2)
  ∧ ∃ j1 j2, composite_text j1 = composite_text j2 ∧ Name j1 ≠ Name j2.
Proof.
  split.
  - intros H1 H2. unfold composite_text. rewrite <- !app_assoc.
    intros E%app_inv_head.
    apply (split_at_newline _ _ (_ ++ _) (_ ++ _)) in E as [-> E]; [|done..].
    split; [done|]. by apply (app_inv_head (lit "Nội dung sách: ")) in E.
  - exists {| Id := PyNone; Name := lit "a";
              Description := lit "b" ++ newline :: lit "Nội dung sách: c" |},
           {| Id := PyNone;
              Name := lit "a" ++ newline :: lit "Nội dung sách: b";
              Description := lit "c" |}.
    split; [by vm_compute|]. vm_compute. discriminate.
Qed.

Lemma composite_text_determines_fields_witness :
  Name Sample.atlas = Name Sample.atlas
  ∧ Description Sample.atlas = Description Sample.atlas.
Proof.
  apply (proj1 (composite_text_determines_fields Sample.atlas Sample.atlas)).
  - vm_compute. intros H. repeat (apply elem_of_cons in H as [H|H]; [discriminate H|]).
    by apply elem_of_nil in H.
  - vm_compute. intros H. repeat (apply elem_of_cons in H as [H|H]; [discriminate H|]).
    by apply elem_of_nil in H.
  - reflexivity.
Defined.

(** ** What the loops keep *)

Section LoopFacts.
Context {F : Type} (env : Env F).
Implicit Types (c : Collection F) (k : Kernel F).

Lemma extends_refl c : extends c c.
Proof. by repeat split. Qed.

Lemma extends_trans c1 c2 c3 : extends c1 c2 → extends c2 c3 → extends c1 c3.
Proof.
  intros (P1 & N1 & M1 & D1 & U1 & I1) (P2 & N2 & M2 & D2 & U2 & I2).
  repeat split; [by etrans|congruence|congruence|auto..].
Qed.

Lemma add_extends c (e : Entry F) c' : add c e = inr c' → extends c c'.
Proof.
  intros H.
  assert (Hnd : NoDup (ids <$> records c) → NoDup (ids <$> records c'))
    by (intros ?; by eapply add_NoDup).
  apply add_inr in H as [Hd ->]. unfold extends. simpl.
  split_and!; try done.
  - destruct (existsb _ _); [done|]. by exists [e].
  - intros d Hc. unfold dimension_ok in Hd. rewrite Hc in Hd.
    apply bool_decide_eq_true in Hd. by subst.
  - intros Hu r Hr. simpl in *.
    assert (r ∈ records c ∨ r = e) as [Hin| ->]; [| |done].
    { destruct (existsb _ _); [by left|].
      apply elem_of_app in Hr as [?|Hr]; [by left|].
      apply list_elem_of_singleton in Hr. by right. }
    apply Hu in Hin as Hdim. unfold dimension_ok in Hd. rewrite Hdim in Hd.
    apply bool_decide_eq_true in Hd. by rewrite Hd.
Qed.

Lemma touches_only_refl h k : touches_only h k k.
Proof. split_and!; try done. intros c Hc. exists c. split; [done|apply extends_refl]. Qed.

Lemma touches_only_trans h k1 k2 k3 :
  touches_only h k1 k2 → touches_only h k2 k3 → touches_only h k1 k3.
Proof.
  intros (O1 & N1 & S1) (O2 & N2 & S2). split_and!.
  - intros n Hn. by rewrite O2, O1.
  - auto.
  - intros c Hc. destruct (S1 c Hc) as (c2 & Hc2 & E1).
    destruct (S2 c2 Hc2) as (c3 & Hc3 & E2). exists c3.
    split; [done|by eapply extends_trans].
Qed.

(** What every iteration keeps, the loop keeps; an exception of the loop is
    an exception of one iteration, run in a state the loop reached. *)
Lemma for_each_preserves {A} (R : Kernel F → Kernel F → Prop) (body : A → M unit) l :
  (∀ k, R k k) → (∀ k1 k2 k3, R k1 k2 → R k2 k3 → R k1 k3) →
  (∀ x k, x ∈ l → R k (final (body x k))) →
  ∀ k, R k (final (for_each body l k))
       ∧ ∀ err, outcome (for_each body l k) = inl err →
           ∃ x k1, x ∈ l ∧ R k k1 ∧ outcome (body x k1) = inl err.
Proof.
  intros Hrefl Htrans. induction l as [|x l IH]; intros Hbody k.
  - split; [apply Hrefl|]. by intros err.
  - rewrite for_each_cons. pose proof (Hbody x k ltac:(left)) as Hx.
    destruct (body x k) as [[[err|[]] k1] t1] eqn:E; unfold final, outcome in *;
      simpl in *.
    + split; [done|]. intros err' [= ->]. exists x, k. rewrite E.
      split_and!; [left|apply Hrefl|done].
    + destruct (IH (λ y k' Hy, Hbody y k' ltac:(by right)) k1) as [Hf Herr].
      split; [by eapply Htrans|].
      intros err Hout. destruct (Herr err Hout) as (y & k2 & Hy & Hr & Ho).
      exists y, k2. split_and!; [by right|by eapply Htrans|done].
Qed.

Lemma text_body_touches item k :
  image_embedding (final (text_body env item k)) = image_embedding k
  ∧ touches_only text_collection k (final (text_body env item k)).
Proof.
  rewrite text_body_run. cbv zeta.
  destruct (generate_text_embedding env _) as [err|v];
    [split; [done|apply touches_only_refl]|].
  destruct (client k !! text_collection) as [c|] eqn:Hc;
    [|split; [done|apply touches_only_refl]].
  destruct (add c _) as [err|c'] eqn:Ha; [split; [done|apply touches_only_refl]|].
  unfold final. cbn [fst snd client image_embedding]. split; [done|].
  split_and!; cbn [client].
  - intros n Hn. by rewrite lookup_insert_ne.
  - by rewrite Hc.
  - intros c0 Hc0. rewrite Hc in Hc0. injection Hc0 as <-. exists c'.
    split; [apply lookup_insert_eq|by eapply add_extends].
Qed.

Lemma image_body_touches subdir file k :
  touches_only image_collection k (final (image_body env subdir file k)).
Proof.
  destruct (is_image env file) eqn:Himg;
    [|rewrite image_body_skip by done; apply touches_only_refl].
  rewrite image_body_run by done. cbv zeta.
  destruct (open_rb env _) as [bs|]; [|apply touches_only_refl].
  destruct (image_embedding k); [|apply touches_only_refl].
  destruct (generate_image_embedding env _) as [err|v]; [apply touches_only_refl|].
  destruct (client k !! image_collection) as [c|] eqn:Hc.
  2:{ unfold final. cbn [fst snd]. split_and!; try done.
      intros c0 Hc0. cbn [client] in *. by rewrite Hc in Hc0. }
  destruct (add c _) as [err|c'] eqn:Ha; unfold final; cbn [fst snd].
  - split_and!; try done. intros c0 Hc0. exists c0. split; [done|apply extends_refl].
  - split_and!; cbn [client].
    + intros n Hn. by rewrite lookup_insert_ne.
    + by rewrite Hc.
    + intros c0 Hc0. rewrite Hc in Hc0. injection Hc0 as <-. exists c'.
      split; [apply lookup_insert_eq|by eapply add_extends].
Qed.

Lemma text_loop_touches items k :
  image_embedding (final (text_indexing_loop env items k)) = image_embedding k
  ∧ touches_only text_collection k (final (text_indexing_loop env items k)).
Proof.
  apply (for_each_preserves
           (λ k k', image_embedding k' = image_embedding k
                    ∧ touches_only text_collection k k')).
  - intros k0. split; [done|apply touches_only_refl].
  - intros k1 k2 k3 [E1 T1] [E2 T2]. split; [congruence|by eapply touches_only_trans].
  - intros item k0 _. apply text_body_touches.
Qed.

Lemma image_loop_touches walk k :
  touches_only image_collection k (final (image_indexing_loop env walk k)).
Proof.
  apply (for_each_preserves (touches_only image_collection));
    [apply touches_only_refl|apply touches_only_trans|].
  intros [[subdir dirs] files] k0 _.
  apply (for_each_preserves (touches_only image_collection));
    [apply touches_only_refl|apply touches_only_trans|].
  intros file k1 _. apply image_body_touches.
Qed.

Lemma touches_only_dom h k k' : touches_only h k k' → dom (client k') = dom (client k).
Proof.
  intros (Ho & Hn & Hs). apply set_eq. intros n. rewrite !elem_of_dom.
  destruct (decide (n = h)) as [->|Hne]; [|by rewrite Ho].
  destruct (client k !! h) as [c|] eqn:Hc.
  - destruct (Hs c eq_refl) as (c' & -> & _). split; by eexists.
  - by rewrite Hn.
Qed.

Lemma add_present_noop c (e : Entry F) :
  dimension c = Some (length (embeddings e)) → ids e ∈ ids <$> records c →
  add c e = inr c.
Proof.
  intros Hd Hin. unfold add, dimension_ok. rewrite Hd, bool_decide_eq_true_2 by done.
  apply existsb_has_id in Hin. rewrite Hin, <- Hd. by destruct c.
Qed.

Lemma text_loop_completed items k c :
  client k !! text_collection = Some c →
  outcome (text_indexing_loop env items k) = inr tt →
  ∃ c', client (final (text_indexing_loop env items k)) !! text_collection = Some c'
    ∧ extends c c'
    ∧ ∀ item, item ∈ items →
        ∃ v, generate_text_embedding env (composite_text item) = inr v
             ∧ dimension c' = Some (length v)
             ∧ py_str (Id item) ∈ ids <$> records c'.
Proof.
  unfold text_indexing_loop. revert k c.
  induction items as [|item items IH]; intros k c Hc.
  - intros _. exists c. split_and!; [done|apply extends_refl|].
    by intros item ?%elem_of_nil.
  - rewrite for_each_cons, text_body_run. cbv zeta. rewrite Hc.
    destruct (generate_text_embedding env (composite_text item)) as [err|v] eqn:Eg;
      [done|].
    destruct (add c (text_entry item v)) as [err|c1] eqn:Ea; [done|].
    unfold outcome at 1, final at 1. cbn [fst snd].
    set (k1 := {| client := _; image_embedding := _ |}). intros Hout.
    destruct (IH k1 c1) as (c' & Hfin & Hext & Hitems);
      [apply lookup_insert_eq|done|].
    exists c'. split_and!; [done|by eapply extends_trans, Hext; eapply add_extends|].
    intros it [->|Hit]%elem_of_cons; [|by apply Hitems].
    exists v. destruct Hext as ([rest Hrest] & _ & _ & Hdim & _).
    split_and!; [done| |].
    + apply Hdim. by apply add_inr in Ea as [_ ->].
    + rewrite Hrest, fmap_app. apply elem_of_app. left.
      by apply (add_records_present _ _ _ Ea).
Qed.

Lemma text_loop_noop items k c :
  client k !! text_collection = Some c →
  (∀ item, item ∈ items →
     ∃ v, generate_text_embedding env (composite_text item) = inr v
          ∧ dimension c = Some (length v)
          ∧ py_str (Id item) ∈ ids <$> records c) →
  text_indexing_loop env items k = (inr tt, k, mjoin (text_calls env <$> items)).
Proof.
  unfold text_indexing_loop. intros Hc.
  induction items as [|item items IH]; intros Hitems; [done|].
  rewrite for_each_cons, text_body_run. cbv zeta. rewrite Hc.
  destruct (Hitems item ltac:(left)) as (v & Hv & Hd & Hin). rewrite Hv.
  rewrite add_present_noop by done.
  rewrite insert_id by done.
  replace {| client := client k; image_embedding := image_embedding k |} with k
    by (by destruct k).
  rewrite IH by (intros it Hit; apply Hitems; by right).
  unfold outcome, final, calls. cbn [fst snd]. rewrite fmap_cons.
  cbn [mjoin list_join]. unfold text_calls at 2. by rewrite Hv.
Qed.


Lemma text_loop_calls_prefix items k :
  ∃ n, (n ≤ length items)%nat
    ∧ calls (text_indexing_loop env items k) = mjoin (text_calls env <$> take n items)
    ∧ (outcome (text_indexing_loop env items k) = inr tt → n = length items)
    ∧ (∀ err, outcome (text_indexing_loop env items k) = inl err → (0 < n)%nat).
Proof.
  unfold text_indexing_loop. revert k.
  induction items as [|item items IH]; intros k.
  - exists 0%nat. split_and!; done.
  - rewrite for_each_cons. pose proof (text_body_calls env item k) as Hc.
    destruct (text_body env item k) as [[[err|[]] k1] t1]; unfold calls in Hc;
      cbn [snd] in Hc; subst t1.
    + exists 1%nat. cbn [length take fmap list_fmap mjoin list_join].
      rewrite take_0. split_and!; [lia|by rewrite app_nil_r|done|lia].
    + destruct (IH k1) as (n & Hn & Hcalls & Hok & Herr). exists (S n).
      unfold outcome at 1 2, calls at 1. cbn [fst snd length take].
      rewrite fmap_cons. cbn [mjoin list_join]. rewrite Hcalls.
      split_and!; [lia|done|intros H; f_equal; by apply Hok|lia].
Qed.

Lemma image_jobs_vector (jobs : list (str * str)) k v :
  image_embedding k = Vector v →
  (∀ p, p ∈ jobs → is_image env p.2 = true) →
  for_each (λ p, image_body env p.1 p.2) jobs k
  = match jobs with
    | [] => (inr tt, k, [])
    | p :: _ =>
        (inl (vector_error env (join (os_name env) p.1 p.2)), k,
         [OpenRead (join (os_name env) p.1 p.2)])
    end.
Proof.
  intros Hv Himg. destruct jobs as [|[d f] rest]; [done|].
  rewrite for_each_cons, image_body_run by (apply (Himg (d, f)); left).
  cbv zeta. cbn [fst snd]. unfold vector_error. rewrite Hv.
  by destruct (open_rb env _).
Qed.

Lemma image_jobs_first (jobs : list (str * str)) d f k c bs v c' :
  image_embedding k = Generator →
  (∀ p, p ∈ (d, f) :: jobs → is_image env p.2 = true) →
  open_rb env (join (os_name env) d f) = Some bs →
  generate_image_embedding env (Byte.to_N <$> b64encode bs) = inr v →
  client k !! image_collection = Some c →
  add c (image_entry env d f v) = inr c' →
  for_each (λ p, image_body env p.1 p.2) ((d, f) :: jobs) k
  = let k1 := {| client := <[image_collection := c']> (client k);
                 image_embedding := Vector v |} in
    let t := [OpenRead (join (os_name env) d f);
              GenerateImage (Byte.to_N <$> b64encode bs);
              Add image_collection (image_entry env d f v)] in
    match jobs with
    | [] => (inr tt, k1, t)
    | p :: _ =>
        (inl (vector_error env (join (os_name env) p.1 p.2)), k1,
         t ++ [OpenRead (join (os_name env) p.1 p.2)])
    end.
Proof.
  intros Hg Himg Ho Hv Hc Ha.
  rewrite for_each_cons, image_body_run by (apply (Himg (d, f)); left).
  cbv zeta. cbn [fst snd]. rewrite Ho, Hg, Hv, Hc, Ha.
  rewrite (image_jobs_vector jobs _ v); [|done|intros p Hp; apply Himg; by right].
  destruct jobs as [|p rest]; unfold outcome, final, calls; cbn [fst snd]; [|done].
  by rewrite app_nil_r.
Qed.

Lemma image_jobs_at_most_one (jobs : list (str * str)) k :
  (∀ p, p ∈ jobs → is_image env p.2 = true) →
  (length (List.filter is_add (calls (for_each (λ p, image_body env p.1 p.2) jobs k))) ≤ 1)%nat
  ∧ (length (List.filter is_generate_image
               (calls (for_each (λ p, image_body env p.1 p.2) jobs k))) ≤ 1)%nat.
Proof.
  intros Himg. destruct jobs as [|[d f] rest]; [simpl; lia|].
  rewrite for_each_cons, image_body_run by (apply (Himg (d, f)); left).
  cbv zeta. cbn [fst snd].
  destruct (open_rb env _) as [bs|]; [|simpl; lia].
  destruct (image_embedding k) eqn:Hk; [|simpl; lia].
  destruct (generate_image_embedding env _) as [err|v]; [simpl; lia|].
  destruct (client k !! image_collection) as [c|]; [|simpl; lia].
  destruct (add c _) as [err|c']; [simpl; lia|].
  rewrite (image_jobs_vector rest _ v); [|done|intros p Hp; apply Himg; by right].
  destruct rest; simpl; lia.
Qed.

End LoopFacts.

Section RunFacts.
Context {F : Type} (env : Env F).
Implicit Types (c : Collection F) (k : Kernel F).

Lemma elem_of_prefix {A} (x : A) l1 l2 : x ∈ l1 → l1 `prefix_of` l2 → x ∈ l2.
Proof. intros Hx [rest ->]. apply elem_of_app. by left. Qed.

Lemma create_collections_noop k :
  is_Some (client k !! text_collection) → is_Some (client k !! image_collection) →
  create_collections k = (inr tt, k, []).
Proof.
  intros [c1 H1] [c2 H2]. unfold create_collections, get_or_create_collection.
  fold (@text_collection). rewrite H1. cbn [fst].
  fold (@image_collection). rewrite H2. cbn [fst]. by destruct k.
Qed.

Lemma create_collections_has_both k :
  is_Some (client (final (create_collections k)) !! text_collection)
  ∧ is_Some (client (final (create_collections k)) !! image_collection).
Proof.
  unfold create_collections, final. cbn [fst snd client].
  rewrite !get_or_create_lookup.
  split; repeat case_bool_decide; try done; apply mk_is_Some.
Qed.

End RunFacts.

(** ** The image loop *)

(** X8.  The image loop is a single loop over the image files of the walk,
    in walk order: directories' sub-directory lists and the files that
    fail the extension test play no part.  On a walk without image files
    the loop completes without any call and leaves the kernel as it is. *)
Theorem image_loop_visits_image_files_only {F : Type} (env : Env F) walk k :
  image_indexing_loop env walk k
  = for_each (λ p, image_body env p.1 p.2) (image_files env walk) k
  ∧ (image_files env walk = [] → image_indexing_loop env walk k = (inr tt, k, [])).
Proof.
  split; [apply image_loop_flat|]. intros H. by rewrite image_loop_flat, H.
Qed.

(** X9.  When the image loop starts with [image_embedding] already bound to
    a vector (the cell is run a second time in the same kernel), it stops
    at the first image file: it opens the file, then raises
    [AttributeError] ([OSError] if the file cannot be read), without
    calling the generator or the store, and the kernel is unchanged. *)
Theorem image_loop_with_vector_binding {F : Type} (env : Env F) walk k v d f rest :
  image_embedding k = Vector v →
  image_files env walk = (d, f) :: rest →
  image_indexing_loop env walk k
  = (inl (vector_error env (join (os_name env) d f)), k,
     [OpenRead (join (os_name env) d f)]).
Proof.
  intros Hv Hf. rewrite image_loop_flat.
  rewrite (image_jobs_vector env _ k v Hv).
  - by rewrite Hf.
  - apply image_files_are_images.
Qed.

Lemma image_loop_with_vector_binding_witness :
  image_indexing_loop Sample.env Sample.walk_two
    (final (image_indexing_loop Sample.env Sample.walk_one Sample.ready))
  = (inl AttributeError,
     final (image_indexing_loop Sample.env Sample.walk_one Sample.ready),
     [OpenRead (join Windows Sample.prod_42 (lit "a.jpg"))]).
Proof.
  apply (image_loop_with_vector_binding Sample.env Sample.walk_two _
           [4%Z; 2%Z; 3%Z] Sample.prod_42 (lit "a.jpg")
           [(Sample.prod_42, lit "b.png")]); vm_compute; reflexivity.
Defined.

(** X10.  Started with the generator bound, on a walk whose first image
    file can be read, embedded and added, the image loop indexes exactly
    that file: it rebinds [image_embedding] to the vector and stores the
    record.  If there is no other image file the loop completes; otherwise
    it opens the second image file and raises, and nothing more is
    stored. *)
Theorem image_loop_indexes_first_image_only {F : Type} (env : Env F)
    walk k d f rest image_file v c c' :
  image_embedding k = Generator →
  image_files env walk = (d, f) :: rest →
  open_rb env (join (os_name env) d f) = Some image_file →
  generate_image_embedding env (Byte.to_N <$> b64encode image_file) = inr v →
  client k !! image_collection = Some c →
  add c (image_entry env d f v) = inr c' →
  image_indexing_loop env walk k
  = let k1 := {| client := <[image_collection := c']> (client k);
                 image_embedding := Vector v |} in
    let t := [OpenRead (join (os_name env) d f);
              GenerateImage (Byte.to_N <$> b64encode image_file);
              Add image_collection (image_entry env d f v)] in
    match rest with
    | [] => (inr tt, k1, t)
    | p :: _ =>
        (inl (vector_error env (join (os_name env) p.1 p.2)), k1,
         t ++ [OpenRead (join (os_name env) p.1 p.2)])
    end.
Proof.
  intros Hg Hf Ho Hv Hc Ha. rewrite image_loop_flat, Hf.
  apply (image_jobs_first env rest d f k c image_file v c'); try done.
  intros p Hp. apply (image_files_are_images env walk). by rewrite Hf.
Qed.

Lemma image_loop_indexes_first_image_only_witness :
  image_indexing_loop Sample.env Sample.walk_two Sample.ready
  = (inl AttributeError,
     {| client := <[image_collection :=
                      {| name := image_collection; metadata := cosine;
                         dimension := Some 3%nat;
                         records := [image_entry Sample.env Sample.prod_42
                                       (lit "a.jpg") [4%Z; 2%Z; 3%Z]] |}]>
                    (client Sample.ready);
        image_embedding := Vector [4%Z; 2%Z; 3%Z] |},
     [OpenRead (join Windows Sample.prod_42 (lit "a.jpg"));
      GenerateImage (lit "TWFu");
      Add image_collection
        (image_entry Sample.env Sample.prod_42 (lit "a.jpg") [4%Z; 2%Z; 3%Z])]
     ++ [OpenRead (join Windows Sample.prod_42 (lit "b.png"))]).
Proof.
  apply (image_loop_indexes_first_image_only Sample.env Sample.walk_two
           Sample.ready Sample.prod_42 (lit "a.jpg")
           [(Sample.prod_42, lit "b.png")] ["M"; "a"; "n"]%byte
           [4%Z; 2%Z; 3%Z] (new_collection image_collection cosine));
    vm_compute; reflexivity.
Defined.

(** X11.  On a walk with two or more image files the image loop never
    completes, whatever the generator, the files and the store are. *)
Theorem image_loop_two_images_never_complete {F : Type} (env : Env F) walk k :
  (2 ≤ length (image_files env walk))%nat →
  ∃ err, outcome (image_indexing_loop env walk k) = inl err.
Proof. apply image_loop_second_image_raises. Qed.

Lemma image_loop_two_images_never_complete_witness :
  ∃ err, outcome (image_indexing_loop Sample.env Sample.walk_two Sample.ready)
         = inl err.
Proof.
  apply (image_loop_two_images_never_complete Sample.env Sample.walk_two Sample.ready).
  vm_compute. lia.
Defined.

(** X12.  One run of the image loop calls the image generator at most once
    and the store at most once. *)
Theorem image_loop_at_most_one_add {F : Type} (env : Env F) walk k :
  (length (List.filter is_add (calls (image_indexing_loop env walk k))) ≤ 1)%nat
  ∧ (length (List.filter is_generate_image
               (calls (image_indexing_loop env walk k))) ≤ 1)%nat.
Proof.
  rewrite image_loop_flat. apply image_jobs_at_most_one.
  apply image_files_are_images.
Qed.

(** X13.  The image loop changes no collection but [image_chroma_db] and
    creates or removes none.  In that collection the records stored before
    stay first, unchanged and in order, the name and the metadata are
    kept, ids stay unique, and embeddings of one common length stay so. *)
Theorem image_loop_frame {F : Type} (env : Env F) walk k :
  let k' := final (image_indexing_loop env walk k) in
  dom (client k') = dom (client k)
  ∧ (∀ n, n ≠ image_collection → client k' !! n = client k !! n)
  ∧ ∀ c, client k !! image_collection = Some c →
      ∃ c', client k' !! image_collection = Some c'
        ∧ records c `prefix_of` records c'
        ∧ name c' = name c ∧ metadata c' = metadata c
        ∧ (NoDup (ids <$> records c) → NoDup (ids <$> records c'))
        ∧ ((∀ r, r ∈ records c → dimension c = Some (length (embeddings r))) →
           ∀ r, r ∈ records c' → dimension c' = Some (length (embeddings r))).
Proof.
  cbv zeta. pose proof (image_loop_touches env walk k) as Ht.
  split; [by eapply touches_only_dom|]. destruct Ht as (Ho & _ & Hs).
  split; [done|]. intros c Hc.
  destruct (Hs c Hc) as (c' & Hc' & Hp & Hn & Hm & _ & Hnd & Hu).
  by exists c'.
Qed.

(** ** The text loop *)

(** X14.  The text loop changes no collection but [text_chroma_db], creates
    or removes none, and leaves the binding of [image_embedding] alone. *)
Theorem text_loop_frame {F : Type} (env : Env F) items k :
  let k' := final (text_indexing_loop env items k) in
  image_embedding k' = image_embedding k
  ∧ dom (client k') = dom (client k)
  ∧ ∀ n, n ≠ text_collection → client k' !! n = client k !! n.
Proof.
  cbv zeta. destruct (text_loop_touches env items k) as [Hb Ht].
  split; [done|]. split; [by eapply touches_only_dom|]. by destruct Ht.
Qed.

(** X15.  Whatever its outcome, the text loop only appends to the text
    collection: the records stored before the loop stay first, unchanged
    and in order, the collection keeps its name and metadata, and ids stay
    unique. *)
Theorem text_loop_keeps_records {F : Type} (env : Env F) items k c :
  client k !! text_collection = Some c →
  ∃ c', client (final (text_indexing_loop env items k)) !! text_collection = Some c'
    ∧ records c `prefix_of` records c'
    ∧ name c' = name c ∧ metadata c' = metadata c
    ∧ (NoDup (ids <$> records c) → NoDup (ids <$> records c')).
Proof.
  intros Hc. destruct (text_loop_touches env items k) as [_ (_ & _ & Hs)].
  destruct (Hs c Hc) as (c' & Hc' & Hp & Hn & Hm & _ & Hnd & _).
  by exists c'.
Qed.

Lemma text_loop_keeps_records_witness :
  ∃ c', client (final (text_indexing_loop Sample.env Sample.batch Sample.ready))
          !! text_collection = Some c'
    ∧ records (new_collection text_collection cosine) `prefix_of` records c'
    ∧ name c' = name (new_collection (F := Z) text_collection cosine)
    ∧ metadata c' = metadata (new_collection (F := Z) text_collection cosine)
    ∧ (NoDup (ids <$> records (new_collection (F := Z) text_collection cosine)) →
       NoDup (ids <$> records c')).
Proof.
  apply (text_loop_keeps_records Sample.env Sample.batch Sample.ready).
  vm_compute. reflexivity.
Defined.

(** X16.  If all embeddings stored in the text collection have the
    collection's dimension before the text loop, then so they do after it,
    whatever its outcome: all stored embeddings have one length. *)
Theorem text_loop_keeps_uniform_dimension {F : Type} (env : Env F) items k c :
  client k !! text_collection = Some c →
  (∀ r, r ∈ records c → dimension c = Some (length (embeddings r))) →
  ∃ c', client (final (text_indexing_loop env items k)) !! text_collection = Some c'
    ∧ (∀ r, r ∈ records c' → dimension c' = Some (length (embeddings r)))
    ∧ ∀ r1 r2, r1 ∈ records c' → r2 ∈ records c' →
        length (embeddings r1) = length (embeddings r2).
Proof.
  intros Hc Hu. destruct (text_loop_touches env items k) as [_ (_ & _ & Hs)].
  destruct (Hs c Hc) as (c' & Hc' & _ & _ & _ & _ & _ & Hu').
  exists c'. split; [done|]. split; [by apply Hu'|].
  intros r1 r2 H1%(Hu' Hu) H2%(Hu' Hu). congruence.
Qed.

Lemma text_loop_keeps_uniform_dimension_witness :
  ∃ c', client (final (text_indexing_loop Sample.env Sample.batch Sample.ready))
          !! text_collection = Some c'
    ∧ (∀ r, r ∈ records c' → dimension c' = Some (length (embeddings r)))
    ∧ ∀ r1 r2, r1 ∈ records c' → r2 ∈ records c' →
        length (embeddings r1) = length (embeddings r2).
Proof.
  apply (text_loop_keeps_uniform_dimension Sample.env Sample.batch Sample.ready
           (new_collection text_collection cosine)).
  - vm_compute. reflexivity.
  - intros r Hr. by apply elem_of_nil in Hr.
Defined.

(** X17.  Running the text loop again on the same input after a run that
    completed changes nothing: every [add] finds its id present, the
    second run completes with the same calls and leaves the kernel as the
    first run left it. *)
Theorem text_loop_rerun_is_noop {F : Type} (env : Env F) items k c :
  client k !! text_collection = Some c →
  outcome (text_indexing_loop env items k) = inr tt →
  text_indexing_loop env items (final (text_indexing_loop env items k))
  = (inr tt, final (text_indexing_loop env items k),
     calls (text_indexing_loop env items k)).
Proof.
  intros Hc Hout.
  destruct (text_loop_completed env items k c Hc Hout) as (c' & Hc' & _ & Hitems).
  rewrite (text_loop_noop env items _ c' Hc' Hitems). f_equal.
  destruct (text_loop_calls env items k) as (n & -> & Hn).
  by rewrite (Hn Hout), firstn_all.
Qed.

Lemma text_loop_rerun_is_noop_witness :
  text_indexing_loop Sample.env [Sample.atlas; Sample.atlas_again]
    (final (text_indexing_loop Sample.env [Sample.atlas; Sample.atlas_again]
              Sample.ready))
  = (inr tt,
     final (text_indexing_loop Sample.env [Sample.atlas; Sample.atlas_again]
              Sample.ready),
     calls (text_indexing_loop Sample.env [Sample.atlas; Sample.atlas_again]
              Sample.ready)).
Proof.
  apply (text_loop_rerun_is_noop Sample.env [Sample.atlas; Sample.atlas_again]
           Sample.ready (new_collection text_collection cosine));
    vm_compute; reflexivity.
Defined.



(** X19.  The text loop works through the input in input order: its calls
    are, for the items of a prefix of the input, one call of the generator
    followed, when it succeeded, by one [add].  The prefix is the whole
    input when the loop completes and is not empty when it raises. *)
Theorem text_loop_calls_in_input_order {F : Type} (env : Env F) items k :
  ∃ n, (n ≤ length items)%nat
    ∧ calls (text_indexing_loop env items k) = mjoin (text_calls env <$> take n items)
    ∧ (outcome (text_indexing_loop env items k) = inr tt → n = length items)
    ∧ (∀ err, outcome (text_indexing_loop env items k) = inl err → (0 < n)%nat).
Proof. apply text_loop_calls_prefix. Qed.

(** X20.  The text loop over a concatenation is the loop over the first
    part followed, if that completes, by the loop over the second part
    from the state it left; if the first part raises, the second part is
    never looked at. *)
Theorem text_loop_app {F : Type} (env : Env F) items1 items2 k :
  text_indexing_loop env (items1 ++ items2) k
  = match text_indexing_loop env items1 k with
    | (inl err, k1, t1) => (inl err, k1, t1)
    | (inr _, k1, t1) =>
        (outcome (text_indexing_loop env items2 k1),
         final (text_indexing_loop env items2 k1),
         t1 ++ calls (text_indexing_loop env items2 k1))
    end.
Proof. apply for_each_app. Qed.

(** ** The cells together *)

(** X21.  After cell e989ee67 and both loops, whatever their outcomes, the
    store holds the same collections as after cell e989ee67, and running
    cell e989ee67 again in a new kernel on that store changes nothing:
    the collections are found with all their records. *)
Theorem create_collections_after_run {F : Type} (env : Env F) items walk k :
  let k1 := final (create_collections k) in
  let k2 := final (text_indexing_loop env items k1) in
  let k3 := final (image_indexing_loop env walk k2) in
  dom (client k3) = dom (client k1)
  ∧ create_collections (start (client k3)) = (inr tt, start (client k3), []).
Proof.
  cbv zeta.
  set (k1 := final (create_collections k)).
  set (k2 := final (text_indexing_loop env items k1)).
  set (k3 := final (image_indexing_loop env walk k2)).
  destruct (create_collections_has_both k) as [[c1 H1] [c2 H2]]. fold k1 in H1, H2.
  destruct (text_loop_touches env items k1) as [_ Ht]. fold k2 in Ht.
  pose proof (image_loop_touches env walk k2) as Hi. fold k3 in Hi.
  split.
  - by rewrite (touches_only_dom _ _ _ Hi), (touches_only_dom _ _ _ Ht).
  - assert (Hne : image_collection ≠ text_collection) by (vm_compute; discriminate).
    destruct Ht as (Ho & _ & Hs), Hi as (Ho' & _ & Hs').
    apply create_collections_noop; cbn [client start].
    + rewrite Ho' by done. destruct (Hs c1 H1) as (c1' & -> & _). by eexists.
    + destruct (Hs' c2) as (c2' & -> & _); [|by eexists]. by rewrite Ho.
Qed.
